(** * The index range-scan stage (mongo/db/exec/index_scan.cpp)

    A shallow embedding of [IndexScan]: the stage that walks an index between
    two bound keys in a chosen direction, drops duplicate record locations for
    multikey indexes, and survives yields and invalidations.

    The stage's own code is translated function by function.  Its
    collaborators (BSON keys, the index cursor, the access method, the catalog,
    the working set, the filter) are declared in headers that are not part of
    the translated sources; they enter either as an interface
    ([Collaborators]) or as a small model whose comment says so. *)

From Stdlib Require Import ZArith NArith Bool List.
From stdpp Require Import base decidable option gmap sets strings list.

Local Open Scope Z_scope.

(** ** Plain data used by the stage *)

(** Modelled from the spec: a record location ("record-location identity").
    The declaration of DiskLoc is missing from the sources; a location is a
    file number and an offset inside that file. *)
Definition DiskLoc : Type := (Z * Z)%type.

(** Modelled from the spec: the null location held by a default-constructed
    DiskLoc member. *)
Definition DiskLoc_Null : DiskLoc := (-1, 0).

(** WorkingSetID is a size_t handle into the working set. *)
Definition WorkingSetID : Type := N.

(** PlanStage::StageState, the values [work] returns. *)
Inductive StageState : Type :=
| ADVANCED
| NEED_TIME
| IS_EOF.

(** CursorOptions, as filled in by the first call to [work]. *)
Inductive Direction : Type :=
| INCREASING
| DECREASING.

Record CursorOptions : Type := {
  numWanted : Z;
  direction : Direction
}.

(** The state tag of a working-set member. Only the tag the stage writes and the
    tag of a freshly allocated member are needed. *)
Inductive MemberState : Type :=
| INVALID
| LOC_AND_IDX.

(** Names of the index families whose access method ignores the end key; the
    comment next to the constructor's check names them "2d and 2dsphere". *)
Definition GEO_2D : string := "2d".
Definition GEO_2DSPHERE : string := "2dsphere".

(** The counters shared by every stage (CommonStats).  Their declarations are
    not part of the sources; a counter is a natural number here. *)
Module CommonStats.
Record t : Type := {
  works : N;
  yields : N;
  unyields : N;
  invalidates : N;
  advanced : N;
  needTime : N;
  isEOF : bool
}.

Definition init : t :=
  {| works := 0; yields := 0; unyields := 0; invalidates := 0;
     advanced := 0; needTime := 0; isEOF := false |}.

Definition inc_works (c : t) : t :=
  {| works := works c + 1; yields := yields c; unyields := unyields c;
     invalidates := invalidates c; advanced := advanced c;
     needTime := needTime c; isEOF := isEOF c |}.
Definition inc_yields (c : t) : t :=
  {| works := works c; yields := yields c + 1; unyields := unyields c;
     invalidates := invalidates c; advanced := advanced c;
     needTime := needTime c; isEOF := isEOF c |}.
Definition inc_unyields (c : t) : t :=
  {| works := works c; yields := yields c; unyields := unyields c + 1;
     invalidates := invalidates c; advanced := advanced c;
     needTime := needTime c; isEOF := isEOF c |}.
Definition inc_invalidates (c : t) : t :=
  {| works := works c; yields := yields c; unyields := unyields c;
     invalidates := invalidates c + 1; advanced := advanced c;
     needTime := needTime c; isEOF := isEOF c |}.
Definition inc_advanced (c : t) : t :=
  {| works := works c; yields := yields c; unyields := unyields c;
     invalidates := invalidates c; advanced := advanced c + 1;
     needTime := needTime c; isEOF := isEOF c |}.
Definition inc_needTime (c : t) : t :=
  {| works := works c; yields := yields c; unyields := unyields c;
     invalidates := invalidates c; advanced := advanced c;
     needTime := needTime c + 1; isEOF := isEOF c |}.
Definition set_isEOF (b : bool) (c : t) : t :=
  {| works := works c; yields := yields c; unyields := unyields c;
     invalidates := invalidates c; advanced := advanced c;
     needTime := needTime c; isEOF := b |}.
End CommonStats.

(** The counters specific to the index scan (IndexScanStats). *)
Module IndexScanStats.
Record t : Type := {
  yieldMovedCursor : N;
  dupsTested : N;
  dupsDropped : N;
  seenInvalidated : N;
  matchTested : N
}.

Definition init : t :=
  {| yieldMovedCursor := 0; dupsTested := 0; dupsDropped := 0;
     seenInvalidated := 0; matchTested := 0 |}.

Definition inc_yieldMovedCursor (c : t) : t :=
  {| yieldMovedCursor := yieldMovedCursor c + 1; dupsTested := dupsTested c;
     dupsDropped := dupsDropped c; seenInvalidated := seenInvalidated c;
     matchTested := matchTested c |}.
Definition inc_dupsTested (c : t) : t :=
  {| yieldMovedCursor := yieldMovedCursor c; dupsTested := dupsTested c + 1;
     dupsDropped := dupsDropped c; seenInvalidated := seenInvalidated c;
     matchTested := matchTested c |}.
Definition inc_dupsDropped (c : t) : t :=
  {| yieldMovedCursor := yieldMovedCursor c; dupsTested := dupsTested c;
     dupsDropped := dupsDropped c + 1; seenInvalidated := seenInvalidated c;
     matchTested := matchTested c |}.
Definition inc_seenInvalidated (c : t) : t :=
  {| yieldMovedCursor := yieldMovedCursor c; dupsTested := dupsTested c;
     dupsDropped := dupsDropped c; seenInvalidated := seenInvalidated c + 1;
     matchTested := matchTested c |}.
Definition inc_matchTested (c : t) : t :=
  {| yieldMovedCursor := yieldMovedCursor c; dupsTested := dupsTested c;
     dupsDropped := dupsDropped c; seenInvalidated := seenInvalidated c;
     matchTested := matchTested c + 1 |}.
End IndexScanStats.

(** IndexDescriptor, read-only for the stage: the key pattern and the multikey
    flag are the two things the stage asks it for. *)
Record IndexDescriptor (Key : Type) : Type := {
  keyPattern : Key;
  isMultikey : bool
}.
Arguments keyPattern {Key} _.
Arguments isMultikey {Key} _.

(** ** The collaborators' interface

    What the stage calls on BSON objects, on the index cursor, on the access
    method and on the catalog.  Every operation on the cursor returns the
    cursor's next state: the stage owns its cursor exclusively. *)
Class Collaborators : Type := {
  (* BSONObj *)
  BSONObj : Type;
  BSONObj_new : BSONObj;
  isEmpty : BSONObj -> bool;
  woCompare : BSONObj -> BSONObj -> BSONObj -> Z;
  binaryEqual : BSONObj -> BSONObj -> bool;
  (* IndexCursor *)
  IndexCursor : Type;
  setOptions : CursorOptions -> IndexCursor -> IndexCursor;
  seek : BSONObj -> IndexCursor -> IndexCursor;
  next : IndexCursor -> IndexCursor;
  cursor_isEOF : IndexCursor -> bool;
  getKey : IndexCursor -> BSONObj;
  getValue : IndexCursor -> DiskLoc;
  savePosition : IndexCursor -> IndexCursor;
  restorePosition : IndexCursor -> IndexCursor;
  (* IndexAccessMethod *)
  IndexAccessMethod : Type;
  newCursor : IndexAccessMethod -> IndexCursor;
  (* CatalogHack *)
  getBtreeIndex : IndexDescriptor BSONObj -> IndexAccessMethod;
  getIndex : IndexDescriptor BSONObj -> IndexAccessMethod;
  getAccessMethodName : BSONObj -> string
}.

Section Stage.
Context `{Collaborators}.

(** *** The working set *)

Record IndexKeyDatum : Type := {
  indexKeyPattern : BSONObj;
  keyData : BSONObj
}.

Record WorkingSetMember : Type := {
  loc : DiskLoc;
  member_keyData : list IndexKeyDatum;
  state : MemberState
}.

Definition WorkingSetMember_new : WorkingSetMember :=
  {| loc := DiskLoc_Null; member_keyData := []; state := INVALID |}.

(** Modelled from the spec: the working-set container, "allocate() -> Id,
    get(Id) -> mutable record, free(Id)".  Its class is missing from the
    sources; the live records are a finite map from handles and a handle is
    never handed out twice. *)
Record WorkingSet : Type := {
  _data : gmap N WorkingSetMember;
  _nextId : WorkingSetID
}.

Definition WorkingSet_allocate (ws : WorkingSet) : WorkingSetID * WorkingSet :=
  (_nextId ws,
   {| _data := <[_nextId ws := WorkingSetMember_new]> (_data ws);
      _nextId := (_nextId ws + 1)%N |}).

(** [get] hands out the record behind a handle; the stage writes through
    it, which is [WorkingSet_put] here. *)
Definition WorkingSet_get (id : WorkingSetID) (ws : WorkingSet) : WorkingSetMember :=
  default WorkingSetMember_new (_data ws !! id).

Definition WorkingSet_put (id : WorkingSetID) (m : WorkingSetMember) (ws : WorkingSet)
  : WorkingSet :=
  {| _data := <[id := m]> (_data ws); _nextId := _nextId ws |}.

Definition WorkingSet_free (id : WorkingSetID) (ws : WorkingSet) : WorkingSet :=
  {| _data := delete id (_data ws); _nextId := _nextId ws |}.

(** *** The filter *)

(** A match expression, seen by the stage only through [Filter_passes]. *)
Definition MatchExpression : Type := WorkingSetMember -> bool.

(** Modelled from the spec: "absence of a filter is equivalent to always
    passes"; Filter::passes is declared in a header outside the sources. *)
Definition Filter_passes (member : WorkingSetMember) (filter : option MatchExpression)
  : bool :=
  match filter with
  | None => true
  | Some f => f member
  end.

(** *** The stage *)

Record IndexScanParams : Type := {
  descriptor : IndexDescriptor BSONObj;
  startKey : BSONObj;
  endKey : BSONObj;
  endKeyInclusive : bool;
  params_direction : Z;
  limit : Z;
  forceBtreeAccessMethod : bool
}.

(** The members of [IndexScan].  [_workingSet] is a pointer to a container
    the stage does not own: the container is passed to [work] and returned by
    it instead of being stored here. *)
Record IndexScan : Type := {
  _iam : IndexAccessMethod;
  _indexCursor : option IndexCursor;
  _descriptor : IndexDescriptor BSONObj;
  _startKey : BSONObj;
  _endKey : BSONObj;
  _endKeyInclusive : bool;
  _direction : Z;
  _hitEnd : bool;
  _filter : option MatchExpression;
  _shouldDedup : bool;
  _returned : gset DiskLoc;
  _yieldMovedCursor : bool;
  _savedKey : BSONObj;
  _savedLoc : DiskLoc;
  _numWanted : Z;
  _commonStats : CommonStats.t;
  _specificStats : IndexScanStats.t
}.

Definition set_indexCursor (v : option IndexCursor) (s : IndexScan) : IndexScan :=
  {| _iam := _iam s; _indexCursor := v; _descriptor := _descriptor s;
     _startKey := _startKey s; _endKey := _endKey s;
     _endKeyInclusive := _endKeyInclusive s; _direction := _direction s;
     _hitEnd := _hitEnd s; _filter := _filter s; _shouldDedup := _shouldDedup s;
     _returned := _returned s; _yieldMovedCursor := _yieldMovedCursor s;
     _savedKey := _savedKey s; _savedLoc := _savedLoc s; _numWanted := _numWanted s;
     _commonStats := _commonStats s; _specificStats := _specificStats s |}.

Definition set_hitEnd (v : bool) (s : IndexScan) : IndexScan :=
  {| _iam := _iam s; _indexCursor := _indexCursor s; _descriptor := _descriptor s;
     _startKey := _startKey s; _endKey := _endKey s;
     _endKeyInclusive := _endKeyInclusive s; _direction := _direction s;
     _hitEnd := v; _filter := _filter s; _shouldDedup := _shouldDedup s;
     _returned := _returned s; _yieldMovedCursor := _yieldMovedCursor s;
     _savedKey := _savedKey s; _savedLoc := _savedLoc s; _numWanted := _numWanted s;
     _commonStats := _commonStats s; _specificStats := _specificStats s |}.

Definition set_returned (v : gset DiskLoc) (s : IndexScan) : IndexScan :=
  {| _iam := _iam s; _indexCursor := _indexCursor s; _descriptor := _descriptor s;
     _startKey := _startKey s; _endKey := _endKey s;
     _endKeyInclusive := _endKeyInclusive s; _direction := _direction s;
     _hitEnd := _hitEnd s; _filter := _filter s; _shouldDedup := _shouldDedup s;
     _returned := v; _yieldMovedCursor := _yieldMovedCursor s;
     _savedKey := _savedKey s; _savedLoc := _savedLoc s; _numWanted := _numWanted s;
     _commonStats := _commonStats s; _specificStats := _specificStats s |}.

Definition set_yieldMovedCursor (v : bool) (s : IndexScan) : IndexScan :=
  {| _iam := _iam s; _indexCursor := _indexCursor s; _descriptor := _descriptor s;
     _startKey := _startKey s; _endKey := _endKey s;
     _endKeyInclusive := _endKeyInclusive s; _direction := _direction s;
     _hitEnd := _hitEnd s; _filter := _filter s; _shouldDedup := _shouldDedup s;
     _returned := _returned s; _yieldMovedCursor := v;
     _savedKey := _savedKey s; _savedLoc := _savedLoc s; _numWanted := _numWanted s;
     _commonStats := _commonStats s; _specificStats := _specificStats s |}.

Definition set_saved (k : BSONObj) (l : DiskLoc) (s : IndexScan) : IndexScan :=
  {| _iam := _iam s; _indexCursor := _indexCursor s; _descriptor := _descriptor s;
     _startKey := _startKey s; _endKey := _endKey s;
     _endKeyInclusive := _endKeyInclusive s; _direction := _direction s;
     _hitEnd := _hitEnd s; _filter := _filter s; _shouldDedup := _shouldDedup s;
     _returned := _returned s; _yieldMovedCursor := _yieldMovedCursor s;
     _savedKey := k; _savedLoc := l; _numWanted := _numWanted s;
     _commonStats := _commonStats s; _specificStats := _specificStats s |}.

Definition upd_commonStats (f : CommonStats.t -> CommonStats.t) (s : IndexScan)
  : IndexScan :=
  {| _iam := _iam s; _indexCursor := _indexCursor s; _descriptor := _descriptor s;
     _startKey := _startKey s; _endKey := _endKey s;
     _endKeyInclusive := _endKeyInclusive s; _direction := _direction s;
     _hitEnd := _hitEnd s; _filter := _filter s; _shouldDedup := _shouldDedup s;
     _returned := _returned s; _yieldMovedCursor := _yieldMovedCursor s;
     _savedKey := _savedKey s; _savedLoc := _savedLoc s; _numWanted := _numWanted s;
     _commonStats := f (_commonStats s); _specificStats := _specificStats s |}.

Definition upd_specificStats (f : IndexScanStats.t -> IndexScanStats.t) (s : IndexScan)
  : IndexScan :=
  {| _iam := _iam s; _indexCursor := _indexCursor s; _descriptor := _descriptor s;
     _startKey := _startKey s; _endKey := _endKey s;
     _endKeyInclusive := _endKeyInclusive s; _direction := _direction s;
     _hitEnd := _hitEnd s; _filter := _filter s; _shouldDedup := _shouldDedup s;
     _returned := _returned s; _yieldMovedCursor := _yieldMovedCursor s;
     _savedKey := _savedKey s; _savedLoc := _savedLoc s; _numWanted := _numWanted s;
     _commonStats := _commonStats s; _specificStats := f (_specificStats s) |}.

(** Return a value in the set {-1, 0, 1} to represent the sign of parameter i. *)
Definition sgn (i : Z) : Z :=
  if i =? 0 then 0 else if i >? 0 then 1 else -1.

(** What constructing a stage gives: the stage, or the exception thrown by a
    failed [verify]. *)
Inductive Constructed : Type :=
| Built (s : IndexScan)
| VerifyFailed.

(** The member initialisers of the constructor; [_iam] is set in its body. *)
Definition IndexScan_init (params : IndexScanParams) (filter : option MatchExpression)
  (iam : IndexAccessMethod) : IndexScan :=
  {| _iam := iam; _indexCursor := None; _descriptor := descriptor params;
     _startKey := startKey params; _endKey := endKey params;
     _endKeyInclusive := endKeyInclusive params;
     _direction := params_direction params; _hitEnd := false;
     _filter := filter; _shouldDedup := isMultikey (descriptor params);
     _returned := ∅; _yieldMovedCursor := false;
     _savedKey := BSONObj_new; _savedLoc := DiskLoc_Null;
     _numWanted := limit params;
     _commonStats := CommonStats.init;
     _specificStats := IndexScanStats.init |}.

(** IndexScan::IndexScan *)
Definition IndexScan_new (params : IndexScanParams) (filter : option MatchExpression)
  : Constructed :=
  let '(iam, amName) :=
    if forceBtreeAccessMethod params
    then (getBtreeIndex (descriptor params), EmptyString)
    else (getIndex (descriptor params),
          getAccessMethodName (keyPattern (descriptor params))) in
  let s := IndexScan_init params filter iam in
  if bool_decide (GEO_2D = amName) || bool_decide (GEO_2DSPHERE = amName)
  then (* _endKey is meaningless for 2d and 2dsphere. *)
    if isEmpty (_endKey s) then Built s else VerifyFailed
  else Built s.

(** IndexScan::isEOF *)
Definition isEOF (s : IndexScan) : bool :=
  match _indexCursor s with
  | None => (* Have to call work() at least once. *) false
  | Some c => cursor_isEOF c || _hitEnd s
  end.

(** IndexScan::checkEnd.  It is private and every call site has a cursor;
    without one the stage is returned as it is. *)
Definition checkEnd (s : IndexScan) : IndexScan :=
  if isEOF s then upd_commonStats (CommonStats.set_isEOF true) s
  else if isEmpty (_endKey s) then s
  else
    match _indexCursor s with
    | None => s
    | Some c =>
        let cmp := sgn (woCompare (_endKey s) (getKey c) (keyPattern (_descriptor s))) in
        if (negb (cmp =? 0) && negb (cmp =? _direction s))
           || ((cmp =? 0) && negb (_endKeyInclusive s))
        then upd_commonStats (CommonStats.set_isEOF true) (set_hitEnd true s)
        else s
    end.

(** First call to work(): perform cursor init, up to and including the seek. *)
Definition initCursor (s : IndexScan) : IndexCursor :=
  let cursorOptions :=
    {| numWanted := _numWanted s;
       direction := if 1 =? _direction s then INCREASING else DECREASING |} in
  let cursor := newCursor (_iam s) in
  seek (_startKey s) (setOptions cursorOptions cursor).

(** The first part of [work]: bring the cursor to the entry this call looks
    at. *)
Definition positionCursor (s : IndexScan) : IndexScan :=
  match _indexCursor s with
  | None => checkEnd (set_indexCursor (Some (initCursor s)) s)
  | Some c =>
      if _yieldMovedCursor s
      then (* Note that we're not calling next() here. *)
        set_yieldMovedCursor false s
      else checkEnd (set_indexCursor (Some (next c)) s)
  end.

(** What one call to [work] leaves behind: the returned state, the handle
    written through [out] (if any), the stage and the working set. *)
Record WorkResult : Type := {
  ret : StageState;
  out : option WorkingSetID;
  stage : IndexScan;
  wset : WorkingSet
}.

(** The last part of [work]: build the member for [loc] and ask the filter. *)
Definition materialize (c : IndexCursor) (l : DiskLoc) (s : IndexScan) (ws : WorkingSet)
  : WorkResult :=
  let '(id, ws) := WorkingSet_allocate ws in
  let member := WorkingSet_get id ws in
  let member :=
    {| loc := l;
       member_keyData :=
         member_keyData member ++
           [{| indexKeyPattern := keyPattern (_descriptor s); keyData := getKey c |}];
       state := LOC_AND_IDX |} in
  let ws := WorkingSet_put id member ws in
  if Filter_passes member (_filter s) then
    let s := match _filter s with
             | Some _ => upd_specificStats IndexScanStats.inc_matchTested s
             | None => s
             end in
    {| ret := ADVANCED; out := Some id;
       stage := upd_commonStats CommonStats.inc_advanced s; wset := ws |}
  else
    {| ret := NEED_TIME; out := None;
       stage := upd_commonStats CommonStats.inc_needTime s;
       wset := WorkingSet_free id ws |}.

(** The middle part of [work]: the duplicate test on the cursor's location. *)
Definition dedup (c : IndexCursor) (s : IndexScan) (ws : WorkingSet) : WorkResult :=
  let l := getValue c in
  if _shouldDedup s then
    let s := upd_specificStats IndexScanStats.inc_dupsTested s in
    if bool_decide (l ∈ _returned s) then
      {| ret := NEED_TIME; out := None;
         stage := upd_commonStats CommonStats.inc_needTime
                    (upd_specificStats IndexScanStats.inc_dupsDropped s);
         wset := ws |}
    else materialize c l (set_returned ({[l]} ∪ _returned s) s) ws
  else materialize c l s ws.

(** IndexScan::work *)
Definition work (s : IndexScan) (ws : WorkingSet) : WorkResult :=
  let s := upd_commonStats CommonStats.inc_works s in
  let s := positionCursor s in
  if isEOF s then {| ret := IS_EOF; out := None; stage := s; wset := ws |}
  else
    match _indexCursor s with
    | Some c => dedup c s ws
    | None => (* [positionCursor] always leaves a cursor *)
        {| ret := IS_EOF; out := None; stage := s; wset := ws |}
    end.

(** IndexScan::prepareToYield *)
Definition prepareToYield (s : IndexScan) : IndexScan :=
  let s := upd_commonStats CommonStats.inc_yields s in
  match _indexCursor s with
  | None => s
  | Some c =>
      if isEOF s then s
      else set_indexCursor (Some (savePosition c)) (set_saved (getKey c) (getValue c) s)
  end.

(** IndexScan::recoverFromYield *)
Definition recoverFromYield (s : IndexScan) : IndexScan :=
  let s := upd_commonStats CommonStats.inc_unyields s in
  match _indexCursor s with
  | None => s
  | Some c =>
      if isEOF s then s
      else
        let c' := restorePosition c in
        let s := set_indexCursor (Some c') s in
        if negb (binaryEqual (_savedKey s) (getKey c'))
           || negb (bool_decide (_savedLoc s = getValue c'))
        then
          (* Our restored position isn't the same as the saved position. *)
          checkEnd (upd_specificStats IndexScanStats.inc_yieldMovedCursor
                      (set_yieldMovedCursor true s))
        else s
  end.

(** IndexScan::invalidate *)
Definition invalidate (dl : DiskLoc) (s : IndexScan) : IndexScan :=
  let s := upd_commonStats CommonStats.inc_invalidates s in
  if bool_decide (dl ∈ _returned s)
  then set_returned (_returned s ∖ {[dl]})
         (upd_specificStats IndexScanStats.inc_seenInvalidated s)
  else s.

(** IndexScan::getStats, as far as the stage's own state goes: the snapshot
    is the common counters with [isEOF] refreshed, next to the specific
    ones. *)
Definition getStats (s : IndexScan) : IndexScan * (CommonStats.t * IndexScanStats.t) :=
  let s := upd_commonStats (CommonStats.set_isEOF (isEOF s)) s in
  (s, (_commonStats s, _specificStats s)).

End Stage.

(** ** A list-backed index

    Modelled from the spec: the storage side of the collaborators' interface
    ("ordered structure mapping key values to record locations" with a
    directional cursor offering seek, advance, save and restore).  None of it
    is part of the translated sources; it gives the stage something concrete to
    run on. *)
Module ListIndex.

(** A key is the list of its field values; index keys carry no field names. *)
Inductive BSONElement : Type :=
| NumberInt (z : Z)
| Utf8 (s : string).

Definition Obj : Type := list BSONElement.

(** Equality of the encoded bytes: same values of the same types, in the same
    order. *)
Definition eqElement (a b : BSONElement) : bool :=
  match a, b with
  | NumberInt x, NumberInt y => x =? y
  | Utf8 x, Utf8 y => String.eqb x y
  | _, _ => false
  end.

Fixpoint eqObj (l r : Obj) : bool :=
  match l, r with
  | [], [] => true
  | a :: l', b :: r' => eqElement a b && eqObj l' r'
  | _, _ => false
  end.

Definition ofComparison (c : comparison) : Z :=
  match c with
  | Lt => -1
  | Eq => 0
  | Gt => 1
  end.

(** Numbers sort before strings. *)
Definition compareElement (a b : BSONElement) : Z :=
  match a, b with
  | NumberInt x, NumberInt y => ofComparison (x ?= y)
  | NumberInt _, Utf8 _ => -1
  | Utf8 _, NumberInt _ => 1
  | Utf8 x, Utf8 y => ofComparison (String.compare x y)
  end.

(** Field by field; a negative number in the ordering flips that field. *)
Fixpoint compareObj (l r ordering : Obj) : Z :=
  match l, r with
  | [], [] => 0
  | [], _ :: _ => -1
  | _ :: _, [] => 1
  | a :: l', b :: r' =>
      let c := compareElement a b in
      if c =? 0 then compareObj l' r' (tail ordering)
      else match ordering with
           | NumberInt z :: _ => if z <? 0 then - c else c
           | _ => c
           end
  end.

(** The plugin named by a key pattern: its first string value, if any. *)
Fixpoint pluginName (pattern : Obj) : string :=
  match pattern with
  | [] => EmptyString
  | Utf8 s :: _ => s
  | NumberInt _ :: rest => pluginName rest
  end.

Definition Entry : Type := (Obj * DiskLoc)%type.

Record Index : Type := {
  entries : list Entry;
  ordering : Obj
}.

Record Cursor : Type := {
  index : Index;
  options : CursorOptions;
  remaining : list Entry;
  saved : option Entry
}.

Fixpoint skipWhile (p : Entry -> bool) (l : list Entry) : list Entry :=
  match l with
  | [] => []
  | e :: l' => if p e then skipWhile p l' else l
  end.

(** The entries in the order the cursor travels. *)
Definition travel (c : Cursor) : list Entry :=
  match direction (options c) with
  | INCREASING => entries (index c)
  | DECREASING => rev (entries (index c))
  end.

Definition locBefore (a b : DiskLoc) : bool :=
  (fst a <? fst b) || ((fst a =? fst b) && (snd a <? snd b)).

(** Does entry [e] come strictly before the position [(k, l)] on the way? *)
Definition entryBefore (c : Cursor) (k : Obj) (l : option DiskLoc) (e : Entry) : bool :=
  let cmp := compareObj (fst e) k (ordering (index c)) in
  match direction (options c) with
  | INCREASING =>
      (cmp <? 0) || ((cmp =? 0) && from_option (locBefore (snd e)) false l)
  | DECREASING =>
      (cmp >? 0) || ((cmp =? 0) && from_option (fun l => locBefore l (snd e)) false l)
  end.

Definition withRemaining (r : list Entry) (c : Cursor) : Cursor :=
  {| index := index c; options := options c; remaining := r; saved := saved c |}.

Definition lseek (k : Obj) (c : Cursor) : Cursor :=
  withRemaining (skipWhile (entryBefore c k None) (travel c)) c.

Definition lnext (c : Cursor) : Cursor :=
  withRemaining (tail (remaining c)) c.

Definition lsave (c : Cursor) : Cursor :=
  {| index := index c; options := options c; remaining := remaining c;
     saved := head (remaining c) |}.

(** Restoring looks the saved position up again in the index as it is now. *)
Definition lrestore (c : Cursor) : Cursor :=
  match saved c with
  | None => c
  | Some (k, l) => withRemaining (skipWhile (entryBefore c k (Some l)) (travel c)) c
  end.

(** What happens to a yielded cursor when the index changes under it. *)
Definition reindex (es : list Entry) (c : Cursor) : Cursor :=
  {| index := {| entries := es; ordering := ordering (index c) |};
     options := options c; remaining := remaining c; saved := saved c |}.

Definition open (d : IndexDescriptor Obj) (es : list Entry) : Index :=
  {| entries := es; ordering := keyPattern d |}.

(** The collaborators over an index holding [es], in key order. *)
Definition collaborators (es : list Entry) : Collaborators :=
  {| BSONObj := Obj;
     BSONObj_new := [];
     isEmpty := fun o => match o with [] => true | _ => false end;
     woCompare := compareObj;
     binaryEqual := eqObj;
     IndexCursor := Cursor;
     setOptions := fun o c =>
       {| index := index c; options := o; remaining := remaining c; saved := saved c |};
     seek := lseek;
     next := lnext;
     cursor_isEOF := fun c => match remaining c with [] => true | _ => false end;
     getKey := fun c => from_option fst [] (head (remaining c));
     getValue := fun c => from_option snd DiskLoc_Null (head (remaining c));
     savePosition := lsave;
     restorePosition := lrestore;
     IndexAccessMethod := Index;
     newCursor := fun i =>
       {| index := i; options := {| numWanted := 0; direction := INCREASING |};
          remaining := []; saved := None |};
     getBtreeIndex := fun d => open d es;
     getIndex := fun d => open d es;
     getAccessMethodName := pluginName |}.

End ListIndex.

(** ** Driving the stage, and what the spec says of it *)
Section Protocol.
Context `{Collaborators}.

(** The Boundary Policy in the spec's words: an empty end key never hits;
    otherwise, with [cmp] the sign of comparing the end key to the current key,
    the boundary is hit when [cmp] is neither zero nor the direction, or when
    [cmp] is zero and the bound is exclusive. *)
Definition hasHitBoundary (currentKey endKey : BSONObj) (dir : Z) (inclusive : bool)
  (ordering : BSONObj) : bool :=
  if isEmpty endKey then false
  else
    let cmp := Z.sgn (woCompare endKey currentKey ordering) in
    bool_decide ((cmp ≠ 0 ∧ cmp ≠ dir) ∨ (cmp = 0 ∧ inclusive = false)).

(** The boundary policy of stage [s] at key [k]. *)
Definition pastEnd (s : IndexScan) (k : BSONObj) : bool :=
  hasHitBoundary k (_endKey s) (_direction s) (_endKeyInclusive s)
    (keyPattern (_descriptor s)).

(** Cursor [c] stands on the first of the entries [es], advancing walks
    through them in order, and after the last one the cursor is exhausted. *)
Fixpoint yieldsFrom (c : IndexCursor) (es : list (BSONObj * DiskLoc)) : Prop :=
  match es with
  | [] => cursor_isEOF c = true
  | (k, l) :: es' =>
      cursor_isEOF c = false ∧ getKey c = k ∧ getValue c = l ∧ yieldsFrom (next c) es'
  end.

(** An exhausted cursor stays exhausted when it is advanced again. *)
Definition exhaustionIsStable : Prop :=
  ∀ c : IndexCursor, cursor_isEOF c = true → cursor_isEOF (next c) = true.

(** The calls a parent stage or the scheduler makes on the stage. *)
Inductive Call : Type :=
| Work
| PrepareToYield
| RecoverFromYield
| Invalidate (dl : DiskLoc).

(** Make the calls in order; the result of every [Work] is collected. *)
Fixpoint run (calls : list Call) (s : IndexScan) (ws : WorkingSet)
  : list WorkResult * IndexScan * WorkingSet :=
  match calls with
  | [] => ([], s, ws)
  | Work :: calls' =>
      let r := work s ws in
      let '(rs, s', ws') := run calls' (stage r) (wset r) in
      (r :: rs, s', ws')
  | PrepareToYield :: calls' => run calls' (prepareToYield s) ws
  | RecoverFromYield :: calls' => run calls' (recoverFromYield s) ws
  | Invalidate dl :: calls' => run calls' (invalidate dl s) ws
  end.

(** The location of the member a call to [work] handed out, if it did. *)
Definition emitted (r : WorkResult) : option DiskLoc :=
  match out r with
  | Some id => loc <$> (_data (wset r) !! id)
  | None => None
  end.

(** What the caller of [work] sees. *)
Definition observe (r : WorkResult) : StageState * option DiskLoc :=
  (ret r, emitted r).

(** The cursor position a call to [work] on [s] looks at: the stage after the
    call counter and the cursor movement. *)
Definition positioned (s : IndexScan) : IndexScan :=
  positionCursor (upd_commonStats CommonStats.inc_works s).

(** The member [work] builds for the entry under cursor [c], whose location
    [l] it has read before. *)
Definition candidate (s : IndexScan) (c : IndexCursor) (l : DiskLoc) : WorkingSetMember :=
  {| loc := l;
     member_keyData :=
       [{| indexKeyPattern := keyPattern (_descriptor s); keyData := getKey c |}];
     state := LOC_AND_IDX |}.

(** The fields the cursor movement leaves alone. *)
Definition sameLedger (s s' : IndexScan) : Prop :=
  _returned s' = _returned s ∧ _shouldDedup s' = _shouldDedup s ∧
  _filter s' = _filter s ∧ _specificStats s' = _specificStats s ∧
  _descriptor s' = _descriptor s ∧ _endKey s' = _endKey s ∧
  _endKeyInclusive s' = _endKeyInclusive s ∧ _direction s' = _direction s.

(** The location a call to [work] on [s] reads from the cursor, if the call
    gets past its EOF test. *)
Definition examined (s : IndexScan) : option DiskLoc :=
  if isEOF (positioned s) then None
  else getValue <$> _indexCursor (positioned s).

(** None of the steps among [calls], made from [s] on, reads location [l]. *)
Fixpoint neverExamines (l : DiskLoc) (calls : list Call) (s : IndexScan)
  (ws : WorkingSet) : Prop :=
  match calls with
  | [] => True
  | Work :: calls' =>
      examined s ≠ Some l
      ∧ neverExamines l calls' (stage (work s ws)) (wset (work s ws))
  | PrepareToYield :: calls' => neverExamines l calls' (prepareToYield s) ws
  | RecoverFromYield :: calls' => neverExamines l calls' (recoverFromYield s) ws
  | Invalidate dl :: calls' => neverExamines l calls' (invalidate dl s) ws
  end.

(** The stage is in the middle of a scan with its cursor on [c]: the boundary
    was not hit and no recovery has flagged the cursor as moved. *)
Definition scanningAt (s : IndexScan) (c : IndexCursor) : Prop :=
  _indexCursor s = Some c ∧ _hitEnd s = false ∧ _yieldMovedCursor s = false.

(** The next call to [work] moves the cursor onto [c']: by the initial seek
    when the stage has no cursor yet, by advancing otherwise. *)
Definition stepsOnto (s : IndexScan) (c' : IndexCursor) : Prop :=
  (_indexCursor s = None ∧ _hitEnd s = false ∧ _yieldMovedCursor s = false
   ∧ c' = initCursor s)
  ∨ (∃ c, scanningAt s c ∧ c' = next c).

(** What a stage is configured with, as opposed to where its scan stands. *)
Definition sameConfig (s s' : IndexScan) : Prop :=
  _descriptor s' = _descriptor s ∧ _endKey s' = _endKey s ∧
  _endKeyInclusive s' = _endKeyInclusive s ∧ _direction s' = _direction s ∧
  _filter s' = _filter s ∧ _shouldDedup s' = _shouldDedup s.

(** A handle that was never handed out has no record behind it. *)
Definition freshNext (ws : WorkingSet) : Prop :=
  _data ws !! _nextId ws = None.

(** *** Whole runs *)

(** Cursor [c] walks through the entries [es], all of them within the bounds
    of stage [s], and then stops: it is exhausted, or its key is past the end
    key. *)
Fixpoint walks (s : IndexScan) (c : IndexCursor) (es : list (BSONObj * DiskLoc)) : Prop :=
  match es with
  | [] => cursor_isEOF c = true ∨ pastEnd s (getKey c) = true
  | (k, l) :: es' =>
      cursor_isEOF c = false ∧ pastEnd s (getKey c) = false
      ∧ getKey c = k ∧ getValue c = l ∧ walks s (next c) es'
  end.

(** Does the filter of stage [s], if it has one, pass the member built for
    the entry with key [k] and location [l]? *)
Definition entryPasses (s : IndexScan) (k : BSONObj) (l : DiskLoc) : bool :=
  Filter_passes
    {| loc := l;
       member_keyData :=
         [{| indexKeyPattern := keyPattern (_descriptor s); keyData := k |}];
       state := LOC_AND_IDX |}
    (_filter s).

(** What the caller sees, step by step, of a scan over [es] that starts with
    the locations [seen] recorded: a recorded location of a deduplicating scan
    is skipped; any other entry is recorded, if the scan deduplicates, and is
    handed out if [passes] lets it through and skipped otherwise; the step
    after the last entry ends the scan. *)
Fixpoint scanTrace (dedups : bool) (passes : BSONObj → DiskLoc → bool)
  (seen : gset DiskLoc) (es : list (BSONObj * DiskLoc))
  : list (StageState * option DiskLoc) :=
  match es with
  | [] => [(IS_EOF, None)]
  | (k, l) :: es' =>
      (if dedups && bool_decide (l ∈ seen)
       then (NEED_TIME, None)
       else if passes k l then (ADVANCED, Some l) else (NEED_TIME, None))
      :: scanTrace dedups passes (if dedups then {[l]} ∪ seen else seen) es'
  end.

Definition isWork (call : Call) : bool :=
  match call with Work => true | _ => false end.

Definition isPrepareToYield (call : Call) : bool :=
  match call with PrepareToYield => true | _ => false end.

Definition isRecoverFromYield (call : Call) : bool :=
  match call with RecoverFromYield => true | _ => false end.

Definition isInvalidate (call : Call) : bool :=
  match call with Invalidate _ => true | _ => false end.

(** How many of the calls satisfy [p]. *)
Fixpoint countCalls (p : Call → bool) (calls : list Call) : N :=
  match calls with
  | [] => 0%N
  | call :: calls' => ((if p call then 1 else 0) + countCalls p calls')%N
  end.

Definition returned_is (st : StageState) (r : WorkResult) : bool :=
  match st, ret r with
  | ADVANCED, ADVANCED | NEED_TIME, NEED_TIME | IS_EOF, IS_EOF => true
  | _, _ => false
  end.

(** How many of the steps returned [st]. *)
Fixpoint countRet (st : StageState) (rs : list WorkResult) : N :=
  match rs with
  | [] => 0%N
  | r :: rs' => ((if returned_is st r then 1 else 0) + countRet st rs')%N
  end.

(** The locations handed out by the steps, in order. *)
Fixpoint emissions (rs : list WorkResult) : list DiskLoc :=
  match rs with
  | [] => []
  | r :: rs' =>
      match emitted r with
      | Some l => l :: emissions rs'
      | None => emissions rs'
      end
  end.

(** The stage with other statistics. *)
Definition withStats (cs : CommonStats.t) (ss : IndexScanStats.t) (s : IndexScan)
  : IndexScan :=
  upd_specificStats (fun _ => ss) (upd_commonStats (fun _ => cs) s).


(** The call and result counters of the common statistics, without the EOF
    flag. *)
Definition tally (c : CommonStats.t) : N * N * N * N * N * N :=
  (CommonStats.works c, CommonStats.yields c, CommonStats.unyields c,
   CommonStats.invalidates c, CommonStats.advanced c, CommonStats.needTime c).

Definition hasFilter (s : IndexScan) : bool :=
  match _filter s with
  | Some _ => true
  | None => false
  end.

(** 1 when the condition holds, 0 otherwise. *)
Definition oneIf (b : bool) : N := if b then 1%N else 0%N.


(** Every live handle of the working set was handed out before. *)
Definition handlesBelowNext (ws : WorkingSet) : Prop :=
  ∀ id : WorkingSetID, is_Some (_data ws !! id) → (id < _nextId ws)%N.


End Protocol.

(** ** Concrete scans over the list-backed index *)
Module Scenarios.
Import ListIndex.

Definition locA : DiskLoc := (0, 16).
Definition locB : DiskLoc := (0, 32).
Definition locC : DiskLoc := (0, 48).

(** The key of a single-field index entry. *)
Definition key (n : Z) : Obj := [NumberInt n].

(** The key pattern {a: 1}. *)
Definition ascending : Obj := [NumberInt 1].

(** The key pattern {a: "2d"}. *)
Definition geo2d : Obj := [Utf8 "2d"].

(** An index with one entry per record. *)
Definition distinctEntries : list Entry := [(key 1, locA); (key 2, locB); (key 3, locC)].

(** A multikey index: the record at [locA] appears under two keys. *)
Definition multikeyEntries : list Entry := [(key 1, locA); (key 2, locA); (key 3, locB)].

Definition distinct : Collaborators := collaborators distinctEntries.
Definition multikey : Collaborators := collaborators multikeyEntries.

Definition emptyWorkingSet {H : Collaborators} : WorkingSet :=
  {| _data := ∅; _nextId := 0%N |}.

Section DistinctScans.
#[local] Existing Instance distinct.

(** Forward from key 1 up to, but not including, key 3. *)
Definition exclusiveParams : @IndexScanParams distinct :=
  {| descriptor := {| keyPattern := ascending; isMultikey := false |};
     startKey := key 1; endKey := key 3; endKeyInclusive := false;
     params_direction := 1; limit := 0; forceBtreeAccessMethod := false |}.

Definition exclusiveStage : @IndexScan distinct :=
  IndexScan_init exclusiveParams None (getIndex (descriptor exclusiveParams)).

(** The same scan after its first step. *)
Definition exclusiveStarted : @IndexScan distinct :=
  stage (work exclusiveStage emptyWorkingSet).

(** The same scan after two steps, about to reach the end key, and the
    working set at that point. *)
Definition exclusiveLate : @IndexScan distinct :=
  (run [Work; Work] exclusiveStage emptyWorkingSet).1.2.

Definition exclusiveLateSet : @WorkingSet distinct :=
  (run [Work; Work] exclusiveStage emptyWorkingSet).2.

(** The scan yields after its first step, the entry it stands on is removed
    from the index meanwhile. *)
Definition yieldedCursor : Cursor :=
  reindex [(key 2, locB); (key 3, locC)]
    (lsave (lseek (key 1)
              {| index := open (descriptor exclusiveParams) distinctEntries;
                 options := {| numWanted := 0; direction := INCREASING |};
                 remaining := []; saved := None |})).

Definition yieldedStage : @IndexScan distinct :=
  set_indexCursor (Some yieldedCursor) (prepareToYield exclusiveStarted).

(** A 2d index scanned with an end key, with and without forcing the btree
    access method. *)
Definition geoParams (force : bool) (endK : Obj) : @IndexScanParams distinct :=
  {| descriptor := {| keyPattern := geo2d; isMultikey := false |};
     startKey := key 1; endKey := endK; endKeyInclusive := true;
     params_direction := 1; limit := 0; forceBtreeAccessMethod := force |}.

(** A scan configured with a direction that is neither 1 nor -1, standing on
    the entry its initial seek finds. *)
Definition oddDirectionParams : @IndexScanParams distinct :=
  {| descriptor := {| keyPattern := ascending; isMultikey := false |};
     startKey := key 1; endKey := key 3; endKeyInclusive := true;
     params_direction := 0; limit := 0; forceBtreeAccessMethod := false |}.

Definition oddDirectionCursor : Cursor :=
  lseek (key 1)
    {| index := open (descriptor oddDirectionParams) distinctEntries;
       options := {| numWanted := 0; direction := DECREASING |};
       remaining := []; saved := None |}.

Definition oddDirectionStage : @IndexScan distinct :=
  set_indexCursor (Some oddDirectionCursor)
    (IndexScan_init oddDirectionParams None (getIndex (descriptor oddDirectionParams))).

(** The cursor of [exclusiveStarted]. *)
Definition exclusiveFirst : Cursor :=
  lseek (key 1)
    {| index := open (descriptor exclusiveParams) distinctEntries;
       options := {| numWanted := 0; direction := INCREASING |};
       remaining := []; saved := None |}.

End DistinctScans.

Section MultikeyScans.
#[local] Existing Instance multikey.

(** Forward over the whole multikey index. *)
Definition multikeyParams : @IndexScanParams multikey :=
  {| descriptor := {| keyPattern := ascending; isMultikey := true |};
     startKey := key 1; endKey := []; endKeyInclusive := true;
     params_direction := 1; limit := 0; forceBtreeAccessMethod := false |}.

Definition multikeyStage (filter : option (@MatchExpression multikey)) : @IndexScan multikey :=
  IndexScan_init multikeyParams filter (getIndex (descriptor multikeyParams)).

(** The unfiltered multikey scan after its first step, which emitted [locA],
    and the working set at that point. *)
Definition multikeyStarted : @IndexScan multikey :=
  stage (work (multikeyStage None) emptyWorkingSet).

Definition multikeyStartedSet : @WorkingSet multikey :=
  wset (work (multikeyStage None) emptyWorkingSet).

(** Where the cursor of that scan stands after a yield, a recovery and one
    more advance. *)
Definition multikeySecond : Cursor :=
  lnext (lrestore (lsave (lseek (key 1)
    {| index := open (descriptor multikeyParams) multikeyEntries;
       options := {| numWanted := 0; direction := INCREASING |};
       remaining := []; saved := None |}))).

(** A filter that rejects every candidate. *)
Definition rejectAll : @MatchExpression multikey := fun _ => false.

(** A filter on the index key: only key 1 passes. *)
Definition onlyKeyOne : @MatchExpression multikey :=
  fun member =>
    match member_keyData member with
    | [datum] => eqObj (keyData datum) (key 1)
    | _ => false
    end.

End MultikeyScans.

End Scenarios.

(** ** An index that is still growing

    Another implementation of the collaborators' interface, over the keys of
    [ListIndex]: its cursor reports exhaustion when it has read every entry
    that is in the index so far, and finds the entries that arrived meanwhile
    when it is advanced again. *)
Module TailingIndex.
Import ListIndex.

Record Index : Type := {
  present : list Entry;
  later : list Entry
}.

Record Cursor : Type := {
  visible : list Entry;
  arriving : list Entry
}.

Definition tseek (k : Obj) (c : Cursor) : Cursor :=
  {| visible := skipWhile (fun e => compareObj (fst e) k [] <? 0) (visible c);
     arriving := arriving c |}.

Definition tnext (c : Cursor) : Cursor :=
  match visible c with
  | [] => {| visible := arriving c; arriving := [] |}
  | _ :: rest => {| visible := rest; arriving := arriving c |}
  end.

(** The collaborators over an index that holds [es] now and receives [more]
    once the cursor has caught up. *)
Definition collaborators (es more : list Entry) : Collaborators :=
  {| BSONObj := Obj;
     BSONObj_new := [];
     isEmpty := fun o => match o with [] => true | _ => false end;
     woCompare := compareObj;
     binaryEqual := eqObj;
     IndexCursor := Cursor;
     setOptions := fun _ c => c;
     seek := tseek;
     next := tnext;
     cursor_isEOF := fun c => match visible c with [] => true | _ => false end;
     getKey := fun c => from_option fst [] (head (visible c));
     getValue := fun c => from_option snd DiskLoc_Null (head (visible c));
     savePosition := fun c => c;
     restorePosition := fun c => c;
     IndexAccessMethod := Index;
     newCursor := fun i => {| visible := present i; arriving := later i |};
     getBtreeIndex := fun _ => {| present := es; later := more |};
     getIndex := fun _ => {| present := es; later := more |};
     getAccessMethodName := pluginName |}.

(** One entry now, one more later. *)
Definition growing : Collaborators :=
  collaborators [(Scenarios.key 1, Scenarios.locA)] [(Scenarios.key 2, Scenarios.locB)].

Definition tailingParams : @IndexScanParams growing :=
  @Build_IndexScanParams growing
    {| keyPattern := Scenarios.ascending; isMultikey := false |}
    (Scenarios.key 1) [] true 1 0 false.

(** An unbounded forward scan of that index. *)
Definition tailingStage : @IndexScan growing :=
  @IndexScan_init growing tailingParams None
    (@getIndex growing (@descriptor growing tailingParams)).

End TailingIndex.

(** ** Properties *)
Section Properties.
Context `{Collaborators}.

Lemma sgn_is_Zsgn (i : Z) : sgn i = Z.sgn i.
Proof.
  unfold sgn. destruct (Z.eqb_spec i 0) as [->|Hne]; [reflexivity|].
  destruct (Z.gtb_spec i 0); lia.
Qed.

Lemma isEOF_upd_commonStats f (s : IndexScan) : isEOF (upd_commonStats f s) = isEOF s.
Proof. reflexivity. Qed.

Lemma isEOF_upd_specificStats f (s : IndexScan) : isEOF (upd_specificStats f s) = isEOF s.
Proof. reflexivity. Qed.

Lemma isEOF_Some (s : IndexScan) c :
  _indexCursor s = Some c → isEOF s = cursor_isEOF c || _hitEnd s.
Proof. unfold isEOF. intros ->. reflexivity. Qed.

(** [checkEnd] on a stage that is not at EOF: the flag becomes what the
    spec's boundary policy says at the cursor's key, and nothing else but the
    EOF statistic moves. *)
Lemma checkEnd_live (s : IndexScan) c :
  _indexCursor s = Some c → isEOF s = false →
  checkEnd s =
    if pastEnd s (getKey c)
    then upd_commonStats (CommonStats.set_isEOF true) (set_hitEnd true s)
    else s.
Proof.
  intros Hc Heof. unfold checkEnd, pastEnd, hasHitBoundary.
  rewrite Heof, Hc. destruct (isEmpty (_endKey s)); [reflexivity|].
  rewrite sgn_is_Zsgn.
  set (cmp := Z.sgn _).
  destruct (Z.eqb_spec cmp 0) as [E0|E0], (Z.eqb_spec cmp (_direction s)) as [Ed|Ed],
    (_endKeyInclusive s) eqn:Ei; cbn [negb andb orb];
    (rewrite bool_decide_eq_true_2 by intuition congruence)
    || (rewrite bool_decide_eq_false_2 by intuition congruence); reflexivity.
Qed.

Lemma checkEnd_eof (s : IndexScan) :
  isEOF s = true → checkEnd s = upd_commonStats (CommonStats.set_isEOF true) s.
Proof. intros Heof. unfold checkEnd. rewrite Heof. reflexivity. Qed.

(** C1. The boundary check of [checkEnd], run on a stage whose cursor stands
    on a key (so the check is not pre-empted by EOF), with the direction
    encoded as +1 or -1: an empty end key reports no hit; otherwise the hit is
    exactly [(cmp <> 0 and cmp <> direction) or (cmp = 0 and not inclusive)]
    for [cmp] the sign of comparing the end key with the current key, which is
    the spec's [hasHitBoundary]; so a key equal to the end key hits iff the
    bound is exclusive, a key strictly past the end key in the direction of
    travel always hits, and a key strictly before it never does. *)
Theorem checkEnd_boundary (s : IndexScan) (c : IndexCursor) :
  _indexCursor s = Some c →
  isEOF s = false →
  _direction s = 1 ∨ _direction s = -1 →
  let d := _direction s in
  let w := woCompare (_endKey s) (getKey c) (keyPattern (_descriptor s)) in
  let cmp := sgn w in
  let hit := _hitEnd (checkEnd s) in
  (isEmpty (_endKey s) = true → hit = false) ∧
  (isEmpty (_endKey s) = false →
     (hit = true ↔ (cmp ≠ 0 ∧ cmp ≠ d) ∨ (cmp = 0 ∧ _endKeyInclusive s = false)) ∧
     (w = 0 → (hit = true ↔ _endKeyInclusive s = false)) ∧
     (w * d < 0 → hit = true) ∧
     (w * d > 0 → hit = false)) ∧
  hit = hasHitBoundary (getKey c) (_endKey s) d (_endKeyInclusive s)
          (keyPattern (_descriptor s)).
Proof.
  intros Hc Heof Hd d w cmp hit.
  assert (Hlow : _hitEnd s = false).
  { rewrite (isEOF_Some _ _ Hc) in Heof. apply orb_false_iff in Heof. tauto. }
  assert (Hhit : hit = pastEnd s (getKey c)).
  { subst hit. rewrite (checkEnd_live _ _ Hc Heof).
    destruct (pastEnd s (getKey c)); [reflexivity | exact Hlow]. }
  split; [|split].
  - intros He. rewrite Hhit. unfold pastEnd, hasHitBoundary. rewrite He. reflexivity.
  - intros He.
    assert (Hiff : hit = true ↔
                   (cmp ≠ 0 ∧ cmp ≠ d) ∨ (cmp = 0 ∧ _endKeyInclusive s = false)).
    { rewrite Hhit. unfold pastEnd, hasHitBoundary. rewrite He.
      rewrite bool_decide_eq_true. subst cmp w d. rewrite sgn_is_Zsgn. reflexivity. }
    assert (Hcmp : cmp = Z.sgn w) by apply sgn_is_Zsgn.
    split; [exact Hiff|]. split; [|split].
    + intros Hw. rewrite Hiff. rewrite Hw in Hcmp. cbn in Hcmp. intuition congruence.
    + intros Hw. apply Hiff. left. subst d. destruct Hd as [Hd|Hd]; rewrite Hd in *; lia.
    + intros Hw. apply not_true_is_false. rewrite Hiff. subst d.
      destruct Hd as [Hd|Hd]; rewrite Hd in *; lia.
  - exact Hhit.
Qed.

(** *** Termination is terminal *)

Lemma positionCursor_has_cursor (s : IndexScan) : is_Some (_indexCursor (positionCursor s)).
Proof.
  unfold positionCursor. destruct (_indexCursor s) as [c|] eqn:Hc.
  - destruct (_yieldMovedCursor s); cbn; [rewrite Hc; eauto|].
    unfold checkEnd. cbn.
    repeat match goal with |- context [if ?b then _ else _] => destruct b end;
      cbn; eauto.
  - unfold checkEnd. cbn.
    repeat match goal with |- context [if ?b then _ else _] => destruct b end;
      cbn; eauto.
Qed.

Lemma isEOF_checkEnd (s : IndexScan) : isEOF s = true → isEOF (checkEnd s) = true.
Proof. intros Heof. rewrite (checkEnd_eof _ Heof). exact Heof. Qed.

(** At EOF the cursor movement of [work] leaves the stage at EOF. *)
Lemma isEOF_positionCursor (s : IndexScan) :
  exhaustionIsStable → isEOF s = true → isEOF (positionCursor s) = true.
Proof.
  intros Hst Heof. unfold positionCursor.
  destruct (_indexCursor s) as [c|] eqn:Hc.
  - destruct (_yieldMovedCursor s); [exact Heof|].
    apply isEOF_checkEnd. rewrite (isEOF_Some _ _ Hc) in Heof.
    unfold isEOF. cbn. apply orb_true_iff in Heof as [Hx|Hh].
    + rewrite (Hst _ Hx). reflexivity.
    + rewrite Hh. apply orb_true_r.
  - unfold isEOF in Heof. rewrite Hc in Heof. discriminate.
Qed.

(** [work] returns IS_EOF exactly when the stage is at EOF after the cursor
    movement, and then it leaves that stage behind. *)
Lemma work_IS_EOF (s : IndexScan) (ws : WorkingSet) :
  ret (work s ws) = IS_EOF ↔ isEOF (positioned s) = true.
Proof.
  unfold work. fold (positioned s).
  destruct (isEOF (positioned s)) eqn:Heof; [cbn; tauto|].
  destruct (positionCursor_has_cursor (upd_commonStats CommonStats.inc_works s))
    as [c Hc].
  fold (positioned s) in Hc. rewrite Hc.
  split; [|discriminate].
  unfold dedup, materialize.
  repeat match goal with
         | |- context [if ?b then _ else _] => destruct b
         | |- context [let '(_, _) := ?p in _] => destruct p
         end; cbn; discriminate.
Qed.

Lemma work_at_EOF (s : IndexScan) (ws : WorkingSet) :
  isEOF (positioned s) = true →
  work s ws = {| ret := IS_EOF; out := None; stage := positioned s; wset := ws |}.
Proof. intros Heof. unfold work. fold (positioned s). rewrite Heof. reflexivity. Qed.

Lemma isEOF_prepareToYield (s : IndexScan) :
  isEOF s = true → isEOF (prepareToYield s) = true.
Proof.
  intros Heof. unfold prepareToYield.
  destruct (_indexCursor _) eqn:Hc; [|exact Heof].
  rewrite isEOF_upd_commonStats, Heof. exact Heof.
Qed.

Lemma isEOF_recoverFromYield (s : IndexScan) :
  isEOF s = true → isEOF (recoverFromYield s) = true.
Proof.
  intros Heof. unfold recoverFromYield.
  destruct (_indexCursor _) eqn:Hc; [|exact Heof].
  rewrite isEOF_upd_commonStats, Heof. exact Heof.
Qed.

Lemma isEOF_invalidate (dl : DiskLoc) (s : IndexScan) : isEOF (invalidate dl s) = isEOF s.
Proof. unfold invalidate. destruct (bool_decide _); reflexivity. Qed.

Lemma run_at_EOF (calls : list Call) :
  exhaustionIsStable →
  ∀ (s : IndexScan) (ws : WorkingSet),
    isEOF s = true →
    Forall (λ r, ret r = IS_EOF ∧ isEOF (stage r) = true) (run calls s ws).1.1
    ∧ isEOF (run calls s ws).1.2 = true.
Proof.
  intros Hst. induction calls as [|call calls IH]; intros s ws Heof.
  - cbn. split; [constructor | exact Heof].
  - assert (Hpos : isEOF (positioned s) = true)
      by (apply isEOF_positionCursor; [exact Hst | exact Heof]).
    destruct call; cbn [run].
    + rewrite (work_at_EOF _ ws Hpos). cbn [stage wset].
      specialize (IH (positioned s) ws Hpos).
      destruct (run calls (positioned s) ws) as [[rs s'] ws']. cbn in *.
      destruct IH as [IH1 IH2]. split; [|exact IH2].
      constructor; [cbn; split; [reflexivity | exact Hpos] | exact IH1].
    + apply IH, isEOF_prepareToYield, Heof.
    + apply IH, isEOF_recoverFromYield, Heof.
    + apply IH. rewrite isEOF_invalidate. exact Heof.
Qed.

(** *** One step, piece by piece *)

(** The cursor a call to [work] on [s] evaluates. *)
Lemma positioned_first (s : IndexScan) :
  _indexCursor s = None →
  positioned s =
    checkEnd (set_indexCursor (Some (initCursor s))
                (upd_commonStats CommonStats.inc_works s)).
Proof. intros Hc. unfold positioned, positionCursor. cbn. rewrite Hc. reflexivity. Qed.

Lemma positioned_next (s : IndexScan) c :
  _indexCursor s = Some c → _yieldMovedCursor s = false →
  positioned s =
    checkEnd (set_indexCursor (Some (next c))
                (upd_commonStats CommonStats.inc_works s)).
Proof.
  intros Hc Hm. unfold positioned, positionCursor. cbn. rewrite Hc, Hm. reflexivity.
Qed.

Lemma positioned_moved (s : IndexScan) c :
  _indexCursor s = Some c → _yieldMovedCursor s = true →
  positioned s = set_yieldMovedCursor false (upd_commonStats CommonStats.inc_works s).
Proof.
  intros Hc Hm. unfold positioned, positionCursor. cbn. rewrite Hc, Hm. reflexivity.
Qed.

(** [checkEnd] touches the boundary flag and the EOF statistic only. *)
Lemma checkEnd_frame (s : IndexScan) :
  ∃ b e, checkEnd s = upd_commonStats (CommonStats.set_isEOF e) (set_hitEnd b s)
         ∨ checkEnd s = s.
Proof.
  unfold checkEnd.
  repeat match goal with
         | |- context [if ?b then _ else _] => destruct b
         | |- context [match ?o with Some _ => _ | None => _ end] => destruct o
         end; try (exists false, false; right; reflexivity).
  - exists (_hitEnd s), true. left. destruct s; reflexivity.
  - exists true, true. left. reflexivity.
Qed.

Lemma sameLedger_checkEnd (s : IndexScan) : sameLedger s (checkEnd s).
Proof.
  destruct (checkEnd_frame s) as (b & e & [-> | ->]); repeat split.
Qed.

Lemma sameLedger_positioned (s : IndexScan) : sameLedger s (positioned s).
Proof.
  unfold positioned, positionCursor. cbn.
  destruct (_indexCursor s) as [c|].
  - destruct (_yieldMovedCursor s); [repeat split|].
    match goal with |- sameLedger _ (checkEnd ?t) =>
      pose proof (sameLedger_checkEnd t) as Hf end.
    unfold sameLedger in *. cbn in Hf. exact Hf.
  - match goal with |- sameLedger _ (checkEnd ?t) =>
      pose proof (sameLedger_checkEnd t) as Hf end.
    unfold sameLedger in *. cbn in Hf. exact Hf.
Qed.

(** Past the EOF test, [work] is the duplicate test on the positioned
    cursor. *)
Lemma work_live (s : IndexScan) (ws : WorkingSet) c :
  _indexCursor (positioned s) = Some c → isEOF (positioned s) = false →
  work s ws = dedup c (positioned s) ws.
Proof.
  intros Hc Heof. unfold work. fold (positioned s). rewrite Heof, Hc. reflexivity.
Qed.

(** The member [work] builds for the cursor's entry. *)
Lemma materialize_member (c : IndexCursor) (l : DiskLoc) (s : IndexScan)
  (ws : WorkingSet) :
  materialize c l s ws =
    let id := _nextId ws in
    let member := candidate s c l in
    let ws1 := {| _data := <[id := member]> (<[id := WorkingSetMember_new]> (_data ws));
                  _nextId := (_nextId ws + 1)%N |} in
    if Filter_passes member (_filter s) then
      {| ret := ADVANCED; out := Some id;
         stage := upd_commonStats CommonStats.inc_advanced
                    (match _filter s with
                     | Some _ => upd_specificStats IndexScanStats.inc_matchTested s
                     | None => s
                     end);
         wset := ws1 |}
    else
      {| ret := NEED_TIME; out := None;
         stage := upd_commonStats CommonStats.inc_needTime s;
         wset := WorkingSet_free id ws1 |}.
Proof.
  unfold materialize, WorkingSet_allocate, WorkingSet_get, WorkingSet_put, candidate.
  cbn. rewrite lookup_insert_eq. reflexivity.
Qed.

Lemma dedup_dup (c : IndexCursor) (s : IndexScan) (ws : WorkingSet) :
  _shouldDedup s = true → getValue c ∈ _returned s →
  dedup c s ws =
    {| ret := NEED_TIME; out := None;
       stage := upd_commonStats CommonStats.inc_needTime
                  (upd_specificStats IndexScanStats.inc_dupsDropped
                     (upd_specificStats IndexScanStats.inc_dupsTested s));
       wset := ws |}.
Proof.
  intros Hd Hin. unfold dedup. rewrite Hd. cbn.
  rewrite bool_decide_eq_true_2 by exact Hin. reflexivity.
Qed.

Lemma dedup_new (c : IndexCursor) (s : IndexScan) (ws : WorkingSet) :
  _shouldDedup s = true → getValue c ∉ _returned s →
  dedup c s ws =
    materialize c (getValue c)
      (set_returned ({[getValue c]} ∪ _returned s)
         (upd_specificStats IndexScanStats.inc_dupsTested s)) ws.
Proof.
  intros Hd Hin. unfold dedup. rewrite Hd. cbn.
  rewrite bool_decide_eq_false_2 by exact Hin. reflexivity.
Qed.

Lemma dedup_off (c : IndexCursor) (s : IndexScan) (ws : WorkingSet) :
  _shouldDedup s = false → dedup c s ws = materialize c (getValue c) s ws.
Proof. intros Hd. unfold dedup. rewrite Hd. reflexivity. Qed.

(** *** The working set *)

Lemma allocate_then_free (ws : WorkingSet) (m : WorkingSetMember) :
  freshNext ws →
  _data (WorkingSet_free (_nextId ws)
           {| _data := <[_nextId ws := m]>
                         (<[_nextId ws := WorkingSetMember_new]> (_data ws));
              _nextId := (_nextId ws + 1)%N |}) = _data ws.
Proof.
  intros Hf. unfold WorkingSet_free. cbn.
  rewrite insert_insert_eq. apply delete_insert_id. exact Hf.
Qed.

Lemma materialize_not_advanced (c : IndexCursor) (l : DiskLoc) (s : IndexScan)
  (ws : WorkingSet) :
  freshNext ws →
  ret (materialize c l s ws) ≠ ADVANCED →
  out (materialize c l s ws) = None ∧ _data (wset (materialize c l s ws)) = _data ws.
Proof.
  intros Hf. rewrite materialize_member. cbn zeta.
  destruct (Filter_passes _ _); cbn [ret out wset]; [congruence|].
  intros _. split; [reflexivity | apply allocate_then_free, Hf].
Qed.

Lemma dedup_not_advanced (c : IndexCursor) (s : IndexScan) (ws : WorkingSet) :
  freshNext ws →
  ret (dedup c s ws) ≠ ADVANCED →
  out (dedup c s ws) = None ∧ _data (wset (dedup c s ws)) = _data ws.
Proof.
  intros Hf. unfold dedup.
  destruct (_shouldDedup s); [|apply materialize_not_advanced, Hf].
  destruct (bool_decide _); [cbn; auto|apply materialize_not_advanced, Hf].
Qed.

(** C9. Whenever a step does not return ADVANCED - the scan is at EOF,
    the location is a duplicate, or the filter rejects the member built for
    it - no handle is written through [out] and the working set holds exactly
    the records it held before the step: the member allocated for a rejected
    candidate has been freed, and in particular the handle the step took is
    not live. *)
Theorem work_frees_unless_advanced (s : IndexScan) (ws : WorkingSet) :
  freshNext ws →
  ret (work s ws) ≠ ADVANCED →
  out (work s ws) = None ∧
  _data (wset (work s ws)) = _data ws ∧
  _data (wset (work s ws)) !! _nextId ws = None.
Proof.
  intros Hf Hret.
  assert (Hgoal : out (work s ws) = None ∧ _data (wset (work s ws)) = _data ws).
  { revert Hret. unfold work. fold (positioned s).
    destruct (isEOF (positioned s)); [cbn; auto|].
    destruct (_indexCursor (positioned s)) as [c|]; [|cbn; auto].
    apply dedup_not_advanced, Hf. }
  destruct Hgoal as [Ho Hd]. rewrite Hd. auto.
Qed.

(** The other exit: an ADVANCED step hands out the handle of a live member
    holding the cursor's location and key. *)
Lemma work_advanced_member (s : IndexScan) (ws : WorkingSet) :
  ret (work s ws) = ADVANCED →
  ∃ c, _indexCursor (positioned s) = Some c ∧ isEOF (positioned s) = false ∧
       out (work s ws) = Some (_nextId ws) ∧
       _data (wset (work s ws)) !! _nextId ws
         = Some (candidate (positioned s) c (getValue c)).
Proof.
  unfold work. fold (positioned s).
  destruct (isEOF (positioned s)) eqn:Heof; [discriminate|].
  destruct (_indexCursor (positioned s)) as [c|]; [|discriminate].
  intros Hret. exists c. split; [reflexivity|]. split; [reflexivity|].
  revert Hret. unfold dedup.
  destruct (_shouldDedup _); [destruct (bool_decide _); [discriminate|]|];
    rewrite materialize_member; cbn zeta;
    (destruct (Filter_passes _ _) eqn:Hp; [|discriminate]);
    intros _; cbn [out wset _data]; rewrite lookup_insert_eq;
    split; reflexivity.
Qed.

(** *** The deduplication set *)

Lemma examined_Some (s : IndexScan) (l : DiskLoc) :
  examined s = Some l ↔
  ∃ c, _indexCursor (positioned s) = Some c ∧ isEOF (positioned s) = false
       ∧ getValue c = l.
Proof.
  unfold examined. destruct (isEOF (positioned s)).
  - split; [discriminate | intros (c & _ & ? & _); discriminate].
  - destruct (_indexCursor (positioned s)) as [c|]; cbn.
    + split; [intros [= <-]; eauto | intros (c' & [= <-] & _ & <-); reflexivity].
    + split; [discriminate | intros (c & ? & _); discriminate].
Qed.

Lemma examined_None (s : IndexScan) (ws : WorkingSet) :
  examined s = None →
  work s ws = {| ret := IS_EOF; out := None; stage := positioned s; wset := ws |}.
Proof.
  unfold examined, work. fold (positioned s).
  destruct (isEOF (positioned s)); [reflexivity|].
  destruct (_indexCursor (positioned s)); [discriminate | reflexivity].
Qed.

(** A step of a deduplicating scan on a location it has not recorded: the
    location is recorded and the member goes to the filter. *)
Lemma work_new (s : IndexScan) (ws : WorkingSet) c :
  _indexCursor (positioned s) = Some c → isEOF (positioned s) = false →
  _shouldDedup s = true → getValue c ∉ _returned s →
  work s ws =
    materialize c (getValue c)
      (set_returned ({[getValue c]} ∪ _returned s)
         (upd_specificStats IndexScanStats.inc_dupsTested (positioned s))) ws.
Proof.
  intros Hc Heof Hd Hin. rewrite (work_live _ _ _ Hc Heof).
  destruct (sameLedger_positioned s) as (Hr & Hs & _).
  rewrite dedup_new by (rewrite ?Hr, ?Hs; assumption).
  rewrite Hr. reflexivity.
Qed.

(** A step of a deduplicating scan on a recorded location drops it. *)
Lemma work_dup (s : IndexScan) (ws : WorkingSet) c :
  _indexCursor (positioned s) = Some c → isEOF (positioned s) = false →
  _shouldDedup s = true → getValue c ∈ _returned s →
  work s ws =
    {| ret := NEED_TIME; out := None;
       stage := upd_commonStats CommonStats.inc_needTime
                  (upd_specificStats IndexScanStats.inc_dupsDropped
                     (upd_specificStats IndexScanStats.inc_dupsTested (positioned s)));
       wset := ws |}.
Proof.
  intros Hc Heof Hd Hin. rewrite (work_live _ _ _ Hc Heof).
  destruct (sameLedger_positioned s) as (Hr & Hs & _).
  apply dedup_dup; rewrite ?Hr, ?Hs; assumption.
Qed.

(** A step of a scan that does not deduplicate. *)
Lemma work_plain (s : IndexScan) (ws : WorkingSet) c :
  _indexCursor (positioned s) = Some c → isEOF (positioned s) = false →
  _shouldDedup s = false →
  work s ws = materialize c (getValue c) (positioned s) ws.
Proof.
  intros Hc Heof Hd. rewrite (work_live _ _ _ Hc Heof).
  destruct (sameLedger_positioned s) as (Hr & Hs & _).
  apply dedup_off. rewrite Hs. exact Hd.
Qed.

Lemma returned_materialize (c : IndexCursor) (l : DiskLoc) (s : IndexScan)
  (ws : WorkingSet) :
  _returned (stage (materialize c l s ws)) = _returned s.
Proof.
  rewrite materialize_member. cbn zeta.
  destruct (Filter_passes _ _); [destruct (_filter s)|]; reflexivity.
Qed.

Lemma returned_work (s : IndexScan) (ws : WorkingSet) :
  _returned (stage (work s ws)) =
    match examined s with
    | Some l => if _shouldDedup s then {[l]} ∪ _returned s else _returned s
    | None => _returned s
    end.
Proof.
  destruct (sameLedger_positioned s) as (Hr & _).
  destruct (examined s) as [l|] eqn:Hex.
  - apply examined_Some in Hex as (c & Hc & Heof & <-).
    destruct (_shouldDedup s) eqn:Hd.
    + destruct (decide (getValue c ∈ _returned s)) as [Hin|Hin].
      * rewrite (work_dup _ _ _ Hc Heof Hd Hin). cbn. rewrite Hr.
        symmetry. apply subseteq_union_1_L, singleton_subseteq_l, Hin.
      * rewrite (work_new _ _ _ Hc Heof Hd Hin), returned_materialize. reflexivity.
    + rewrite (work_plain _ _ _ Hc Heof Hd), returned_materialize. exact Hr.
  - rewrite (examined_None _ _ Hex). exact Hr.
Qed.

Lemma IndexScan_new_Built (params : IndexScanParams) (filter : option MatchExpression)
  (s : IndexScan) :
  IndexScan_new params filter = Built s →
  _indexCursor s = None ∧ _returned s = ∅ ∧ _hitEnd s = false ∧
  _yieldMovedCursor s = false ∧ _filter s = filter ∧
  _shouldDedup s = isMultikey (descriptor params) ∧
  _descriptor s = descriptor params ∧ _startKey s = startKey params ∧
  _endKey s = endKey params ∧ _endKeyInclusive s = endKeyInclusive params ∧
  _direction s = params_direction params ∧ _numWanted s = limit params ∧
  _specificStats s = IndexScanStats.init ∧ _commonStats s = CommonStats.init.
Proof.
  unfold IndexScan_new.
  destruct (forceBtreeAccessMethod params); cbn;
    repeat match goal with |- context [if ?b then _ else _] => destruct b end;
    intros [= <-] || discriminate; cbn; repeat split.
Qed.

Lemma returned_prepareToYield (s : IndexScan) : _returned (prepareToYield s) = _returned s.
Proof.
  unfold prepareToYield. destruct (_indexCursor _); [|reflexivity].
  destruct (isEOF _); reflexivity.
Qed.

Lemma recoverFromYield_ledger (s : IndexScan) :
  _returned (recoverFromYield s) = _returned s
  ∧ _shouldDedup (recoverFromYield s) = _shouldDedup s
  ∧ IndexScanStats.dupsDropped (_specificStats (recoverFromYield s))
    = IndexScanStats.dupsDropped (_specificStats s).
Proof.
  unfold recoverFromYield. destruct (_indexCursor _); [|repeat split].
  destruct (isEOF _); [repeat split|].
  cbn zeta. destruct (_ || _); [|repeat split].
  match goal with |- context [checkEnd ?t] =>
    destruct (sameLedger_checkEnd t) as (-> & -> & _ & -> & _) end.
  repeat split.
Qed.

Lemma returned_invalidate (dl : DiskLoc) (s : IndexScan) :
  _returned (invalidate dl s) = _returned s ∖ {[dl]}.
Proof.
  unfold invalidate. cbn. destruct (decide (dl ∈ _returned s)) as [Hin|Hin].
  - rewrite bool_decide_eq_true_2 by exact Hin. reflexivity.
  - rewrite bool_decide_eq_false_2 by exact Hin. cbn.
    symmetry. apply difference_disjoint_L, disjoint_singleton_r, Hin.
Qed.

(** C4, as the code has it. The deduplication set is empty when the stage
    is constructed.  A step changes it only in a deduplicating scan and only
    by adding the location it reads from the cursor - at the duplicate test,
    before the filter is asked - so a location not yet recorded is recorded
    whether the step then returns ADVANCED or the filter rejects the member
    (NEED_TIME); every ADVANCED result of a deduplicating scan has its location
    recorded.  [invalidate] removes exactly the invalidated location, and a
    yield or a recovery leaves the set alone. *)
Theorem returned_lifecycle :
  (∀ (params : IndexScanParams) (filter : option MatchExpression),
     match IndexScan_new params filter with
     | Built s => _returned s = ∅
     | VerifyFailed => True
     end) ∧
  (∀ (s : IndexScan) (ws : WorkingSet),
     _returned (stage (work s ws)) =
       match examined s with
       | Some l => if _shouldDedup s then {[l]} ∪ _returned s else _returned s
       | None => _returned s
       end) ∧
  (∀ (s : IndexScan) (ws : WorkingSet),
     ret (work s ws) = ADVANCED →
     ∃ l, examined s = Some l
          ∧ (_shouldDedup s = true →
             (l ∉ _returned s) ∧ (l ∈ _returned (stage (work s ws))))) ∧
  (∀ (s : IndexScan) (ws : WorkingSet) (c : IndexCursor),
     _indexCursor (positioned s) = Some c →
     isEOF (positioned s) = false →
     _shouldDedup s = true →
     getValue c ∉ _returned s →
     Filter_passes (candidate s c (getValue c)) (_filter s) = false →
     ret (work s ws) = NEED_TIME ∧ getValue c ∈ _returned (stage (work s ws))) ∧
  (∀ (dl : DiskLoc) (s : IndexScan), _returned (invalidate dl s) = _returned s ∖ {[dl]}) ∧
  (∀ s : IndexScan,
     _returned (prepareToYield s) = _returned s
     ∧ _returned (recoverFromYield s) = _returned s).
Proof.
  split; [|split; [|split; [|split; [|split]]]].
  - intros params filter. destruct (IndexScan_new params filter) as [s|] eqn:Hn; [|exact I].
    apply IndexScan_new_Built in Hn. tauto.
  - apply returned_work.
  - intros s ws Hret. rewrite returned_work.
    destruct (examined s) as [l|] eqn:Hex.
    + exists l. split; [reflexivity|]. intros Hd. rewrite Hd.
      apply examined_Some in Hex as (c & Hc & Heof & <-).
      destruct (decide (getValue c ∈ _returned s)) as [Hin|Hin].
      * rewrite (work_dup _ _ _ Hc Heof Hd Hin) in Hret. discriminate.
      * split; [exact Hin|]. apply elem_of_union_l, elem_of_singleton. reflexivity.
    + rewrite (examined_None _ _ Hex) in Hret. discriminate.
  - intros s ws c Hc Heof Hd Hin Hp.
    destruct (sameLedger_positioned s) as (_ & _ & Hflt & _ & Hdesc & _).
    rewrite (work_new _ _ _ Hc Heof Hd Hin), materialize_member. cbn zeta.
    unfold candidate in *. cbn [_descriptor set_returned upd_specificStats _filter].
    rewrite Hflt, Hdesc, Hp. cbn.
    split; [reflexivity|]. apply elem_of_union_l, elem_of_singleton. reflexivity.
  - apply returned_invalidate.
  - intros s. split; [apply returned_prepareToYield | apply recoverFromYield_ledger].
Qed.

(** *** Invalidation *)

Lemma shouldDedup_work (s : IndexScan) (ws : WorkingSet) :
  _shouldDedup (stage (work s ws)) = _shouldDedup s.
Proof.
  destruct (sameLedger_positioned s) as (_ & Hs & _).
  unfold work. fold (positioned s).
  destruct (isEOF (positioned s)); [exact Hs|].
  destruct (_indexCursor (positioned s)) as [c|]; [|exact Hs].
  unfold dedup. destruct (_shouldDedup (positioned s)) eqn:Hd;
    [destruct (bool_decide _); [cbn; congruence|]|];
    rewrite materialize_member; cbn zeta;
    (destruct (Filter_passes _ _); [destruct (_filter _)|]); cbn; congruence.
Qed.

Lemma shouldDedup_prepareToYield (s : IndexScan) :
  _shouldDedup (prepareToYield s) = _shouldDedup s.
Proof.
  unfold prepareToYield. destruct (_indexCursor _); [|reflexivity].
  destruct (isEOF _); reflexivity.
Qed.

Lemma shouldDedup_invalidate (dl : DiskLoc) (s : IndexScan) :
  _shouldDedup (invalidate dl s) = _shouldDedup s.
Proof. unfold invalidate. destruct (bool_decide _); reflexivity. Qed.

(** A location that is not recorded stays unrecorded through calls whose
    steps do not read it. *)
Lemma absent_run (l : DiskLoc) (calls : list Call) :
  ∀ (s : IndexScan) (ws : WorkingSet),
    l ∉ _returned s → neverExamines l calls s ws →
    (l ∉ _returned (run calls s ws).1.2)
    ∧ _shouldDedup (run calls s ws).1.2 = _shouldDedup s.
Proof.
  induction calls as [|call calls IH]; intros s ws Hl Hn; [cbn; auto|].
  destruct call; cbn [run neverExamines] in *.
  - destruct Hn as [Hex Hn].
    assert (Hl' : l ∉ _returned (stage (work s ws))).
    { rewrite returned_work. destruct (examined s) as [l'|]; [|exact Hl].
      destruct (_shouldDedup s); [|exact Hl].
      intros [Hx%elem_of_singleton|Hx]%elem_of_union; [congruence | exact (Hl Hx)]. }
    specialize (IH _ _ Hl' Hn).
    destruct (run calls (stage (work s ws)) (wset (work s ws))) as [[rs s'] ws'].
    cbn in *. rewrite <- (shouldDedup_work s ws). exact IH.
  - rewrite <- (shouldDedup_prepareToYield s). apply IH; [|exact Hn].
    rewrite returned_prepareToYield. exact Hl.
  - destruct (recoverFromYield_ledger s) as (Hr & Hs & _).
    rewrite <- Hs. apply IH; [|exact Hn]. rewrite Hr. exact Hl.
  - rewrite <- (shouldDedup_invalidate dl s). apply IH; [|exact Hn].
    rewrite returned_invalidate. intros [Hx _]%elem_of_difference. exact (Hl Hx).
Qed.

(** C5, as the code has it. In a deduplicating (multikey) scan, after
    [invalidate L] - whatever was recorded before, so in particular after L
    was emitted - the next step that reads an entry pointing at L, however
    many other calls not reading L come in between, does not drop it as a
    duplicate: the duplicate-dropped count stays as it is, L is recorded anew,
    and the member built for the entry goes to the filter.  The step returns
    ADVANCED with a member whose location is L when no filter is configured or
    the filter passes the member, and NEED_TIME when the filter rejects it. *)
Theorem invalidate_reinstates (s : IndexScan) (ws : WorkingSet) (L : DiskLoc)
  (calls : list Call) (c : IndexCursor) :
  _shouldDedup s = true →
  neverExamines L calls (invalidate L s) ws →
  let s2 := (run calls (invalidate L s) ws).1.2 in
  let ws2 := (run calls (invalidate L s) ws).2 in
  _indexCursor (positioned s2) = Some c →
  isEOF (positioned s2) = false →
  getValue c = L →
  let r := work s2 ws2 in
  IndexScanStats.dupsDropped (_specificStats (stage r))
  = IndexScanStats.dupsDropped (_specificStats s2)
  ∧ L ∈ _returned (stage r)
  ∧ (if Filter_passes (candidate s2 c L) (_filter s2)
     then ret r = ADVANCED ∧ emitted r = Some L
     else ret r = NEED_TIME).
Proof.
  intros Hd Hn s2 ws2 Hc Heof HL r.
  assert (Habs : L ∉ _returned (invalidate L s)).
  { rewrite returned_invalidate. intros [_ Hx]%elem_of_difference.
    apply Hx, elem_of_singleton. reflexivity. }
  destruct (absent_run L calls _ _ Habs Hn) as [Hl2 Hd2].
  fold s2 in Hl2, Hd2. rewrite shouldDedup_invalidate, Hd in Hd2.
  destruct (sameLedger_positioned s2) as (_ & _ & Hflt & Hst & Hdesc & _).
  subst r. rewrite <- HL in Hl2.
  rewrite (work_new _ _ _ Hc Heof Hd2 Hl2), materialize_member. cbn zeta.
  unfold candidate. cbn [_descriptor set_returned upd_specificStats _filter].
  rewrite Hflt, Hdesc, HL.
  destruct (Filter_passes _ (_filter s2)); cbn.
  - split; [destruct (_filter s2); cbn; rewrite Hst; reflexivity|].
    split; [destruct (_filter s2); cbn; apply elem_of_union_l, elem_of_singleton;
            reflexivity|].
    split; [reflexivity|]. rewrite lookup_insert_eq. reflexivity.
  - rewrite Hst. split; [reflexivity|].
    split; [apply elem_of_union_l, elem_of_singleton; reflexivity | reflexivity].
Qed.

(** *** Yields *)

Lemma indexCursor_dedup (c : IndexCursor) (s : IndexScan) (ws : WorkingSet) :
  _indexCursor (stage (dedup c s ws)) = _indexCursor s.
Proof.
  unfold dedup. destruct (_shouldDedup s); [destruct (bool_decide _); [reflexivity|]|];
    rewrite materialize_member; cbn zeta;
    (destruct (Filter_passes _ _); [destruct (_filter _)|]); reflexivity.
Qed.

(** C6. When [recoverFromYield] restores the cursor to a position whose key
    is not byte-identical to the saved key, or whose location differs from the
    saved one, it keeps the restored cursor, raises [_yieldMovedCursor],
    counts the event and derives the boundary flag afresh from the restored
    key (unless the restored cursor is exhausted).  The next call to [work]
    then clears the flag and evaluates the restored position itself: the
    cursor is not advanced, the step ends the scan if that position is
    exhausted or past the end key, and otherwise it is the duplicate test and
    member construction on the restored entry. *)
Theorem recover_moved_cursor (s : IndexScan) (c : IndexCursor) (ws : WorkingSet) :
  _indexCursor s = Some c →
  isEOF s = false →
  binaryEqual (_savedKey s) (getKey (restorePosition c)) = false
  ∨ _savedLoc s ≠ getValue (restorePosition c) →
  let c' := restorePosition c in
  let s' := recoverFromYield s in
  let r := work s' ws in
  _indexCursor s' = Some c'
  ∧ _yieldMovedCursor s' = true
  ∧ IndexScanStats.yieldMovedCursor (_specificStats s')
    = (IndexScanStats.yieldMovedCursor (_specificStats s) + 1)%N
  ∧ _hitEnd s' = negb (cursor_isEOF c') && pastEnd s (getKey c')
  ∧ positioned s' = set_yieldMovedCursor false (upd_commonStats CommonStats.inc_works s')
  ∧ _indexCursor (stage r) = Some c'
  ∧ _yieldMovedCursor (stage r) = false
  ∧ (if cursor_isEOF c' || pastEnd s (getKey c')
     then ret r = IS_EOF ∧ out r = None
     else r = dedup c' (positioned s') ws).
Proof.
  intros Hc Heof Hmoved c' s' r.
  assert (Hlow : _hitEnd s = false).
  { rewrite (isEOF_Some _ _ Hc) in Heof. apply orb_false_iff in Heof. tauto. }
  set (t := upd_specificStats IndexScanStats.inc_yieldMovedCursor
              (set_yieldMovedCursor true
                 (set_indexCursor (Some c')
                    (upd_commonStats CommonStats.inc_unyields s)))).
  assert (Hs' : s' = checkEnd t).
  { subst s' t. unfold recoverFromYield. cbn. rewrite Hc.
    rewrite isEOF_upd_commonStats, Heof. fold c'.
    destruct Hmoved as [Hk|Hl].
    - fold c' in Hk. rewrite Hk. reflexivity.
    - fold c' in Hl. rewrite (bool_decide_eq_false_2 _ Hl), orb_true_r. reflexivity. }
  assert (Ht : isEOF t = cursor_isEOF c').
  { unfold isEOF, t. cbn. rewrite Hlow. apply orb_false_r. }
  assert (Hshape : s' = (if cursor_isEOF c'
                         then upd_commonStats (CommonStats.set_isEOF true) t
                         else if pastEnd s (getKey c')
                              then upd_commonStats (CommonStats.set_isEOF true)
                                     (set_hitEnd true t)
                              else t)).
  { rewrite Hs'. destruct (cursor_isEOF c') eqn:Hx.
    - apply checkEnd_eof. rewrite Ht. reflexivity.
    - rewrite (checkEnd_live t c') by (rewrite ?Ht; reflexivity). reflexivity. }
  assert (Hcur : _indexCursor s' = Some c').
  { rewrite Hshape. destruct (cursor_isEOF c'); [|destruct (pastEnd _ _)]; reflexivity. }
  assert (Hflag : _yieldMovedCursor s' = true).
  { rewrite Hshape. destruct (cursor_isEOF c'); [|destruct (pastEnd _ _)]; reflexivity. }
  assert (Hhit : _hitEnd s' = negb (cursor_isEOF c') && pastEnd s (getKey c')).
  { rewrite Hshape. destruct (cursor_isEOF c'); [|destruct (pastEnd _ _)]; cbn;
      rewrite ?Hlow; reflexivity. }
  assert (Hpos : positioned s'
                 = set_yieldMovedCursor false (upd_commonStats CommonStats.inc_works s'))
    by exact (positioned_moved _ _ Hcur Hflag).
  assert (Hpcur : _indexCursor (positioned s') = Some c') by (rewrite Hpos; exact Hcur).
  assert (Hpeof : isEOF (positioned s') = cursor_isEOF c' || pastEnd s (getKey c')).
  { rewrite (isEOF_Some _ _ Hpcur), Hpos. cbn. rewrite Hhit.
    destruct (cursor_isEOF c'); reflexivity. }
  split; [exact Hcur|]. split; [exact Hflag|]. split.
  { rewrite Hshape. destruct (cursor_isEOF c'); [|destruct (pastEnd _ _)]; reflexivity. }
  split; [exact Hhit|]. split; [exact Hpos|].
  subst r. destruct (cursor_isEOF c' || pastEnd s (getKey c')) eqn:Hend.
  - rewrite (work_at_EOF _ ws Hpeof). cbn [stage ret out]. rewrite Hpos.
    repeat split. exact Hcur.
  - rewrite (work_live _ ws c' Hpcur Hpeof).
    split; [rewrite indexCursor_dedup; exact Hpcur|].
    split; [|reflexivity].
    rewrite Hpos. unfold dedup.
    destruct (_shouldDedup _); [destruct (bool_decide _); [reflexivity|]|];
      rewrite materialize_member; cbn zeta;
      (destruct (Filter_passes _ _); [destruct (_filter _)|]); reflexivity.
Qed.

(** C8, as the code has it. When the stage is at EOF, or no cursor has been
    constructed yet, [prepareToYield] and [recoverFromYield] do nothing to
    the cursor, the saved position, the moved-cursor flag or any other member -
    except that each call is counted: the [yields] counter, respectively the
    [unyields] counter, goes up by one. *)
Theorem yield_only_counts (s : IndexScan) :
  isEOF s = true ∨ _indexCursor s = None →
  prepareToYield s = upd_commonStats CommonStats.inc_yields s
  ∧ recoverFromYield s = upd_commonStats CommonStats.inc_unyields s.
Proof.
  intros Hcase. unfold prepareToYield, recoverFromYield. cbn.
  destruct (_indexCursor s) as [c|] eqn:Hc; [|split; reflexivity].
  destruct Hcase as [Heof|?]; [|discriminate].
  rewrite !isEOF_upd_commonStats, Heof. split; reflexivity.
Qed.

(** *** Construction *)

(** C10, as the code has it. For a key pattern of the 2d or 2dsphere
    family: when the btree access method is not forced, constructing the stage
    with a non-empty end key fails the constructor's [verify], and with an
    empty end key it succeeds; when the btree access method is forced, the
    check is skipped and construction succeeds whatever the end key. *)
Theorem geo_endKey_verified (params : IndexScanParams) (filter : option MatchExpression) :
  getAccessMethodName (keyPattern (descriptor params)) = GEO_2D
  ∨ getAccessMethodName (keyPattern (descriptor params)) = GEO_2DSPHERE →
  (forceBtreeAccessMethod params = false →
   if isEmpty (endKey params)
   then ∃ s, IndexScan_new params filter = Built s
   else IndexScan_new params filter = VerifyFailed)
  ∧ (forceBtreeAccessMethod params = true →
     ∃ s, IndexScan_new params filter = Built s).
Proof.
  intros Hgeo. unfold IndexScan_new. split; intros ->; cbn.
  - assert (Hb : bool_decide (GEO_2D = getAccessMethodName (keyPattern (descriptor params)))
                 || bool_decide
                      (GEO_2DSPHERE = getAccessMethodName (keyPattern (descriptor params)))
                 = true).
    { destruct Hgeo as [-> | ->]; reflexivity. }
    rewrite Hb. destruct (isEmpty (endKey params)); eauto.
  - eauto.
Qed.

(** *** Walking through the entries *)

Lemma work_cursor_fields (s : IndexScan) (ws : WorkingSet) :
  _indexCursor (stage (work s ws)) = _indexCursor (positioned s)
  ∧ _hitEnd (stage (work s ws)) = _hitEnd (positioned s)
  ∧ _yieldMovedCursor (stage (work s ws)) = _yieldMovedCursor (positioned s).
Proof.
  unfold work. fold (positioned s).
  destruct (isEOF (positioned s)); [repeat split|].
  destruct (_indexCursor (positioned s)) as [c|] eqn:Hc; [|cbn; rewrite Hc; auto].
  unfold dedup. destruct (_shouldDedup _); [destruct (bool_decide _); [cbn; auto|]|];
    rewrite materialize_member; cbn zeta;
    (destruct (Filter_passes _ _); [destruct (_filter _)|]); cbn; auto.
Qed.

Lemma dedup_config (c : IndexCursor) (s : IndexScan) (ws : WorkingSet) :
  sameConfig s (stage (dedup c s ws)).
Proof.
  unfold sameConfig, dedup.
  destruct (_shouldDedup s) eqn:Hsd; [destruct (bool_decide _)|];
    rewrite ?materialize_member; cbn;
    try destruct (Filter_passes _ _); try destruct (_filter s) eqn:Hfp;
    cbn; rewrite ?Hfp, ?Hsd; repeat split.
Qed.

Lemma work_config (s : IndexScan) (ws : WorkingSet) : sameConfig s (stage (work s ws)).
Proof.
  destruct (sameLedger_positioned s) as (_ & Hs & Hf & _ & Hd & He & Hi & Hdir).
  assert (Hpos : sameConfig s (positioned s)) by (unfold sameConfig; auto 10).
  unfold work. fold (positioned s).
  destruct (isEOF (positioned s)); [exact Hpos|].
  destruct (_indexCursor (positioned s)) as [c|]; [|exact Hpos].
  destruct (dedup_config c (positioned s) ws) as (Hd' & He' & Hi' & Hdir' & Hf' & Hs').
  unfold sameConfig. rewrite Hd', He', Hi', Hdir', Hf', Hs'. exact Hpos.
Qed.

Lemma pastEnd_config (s s' : IndexScan) (k : BSONObj) :
  sameConfig s s' → pastEnd s' k = pastEnd s k.
Proof. intros (Hd & He & Hi & Hdir & _). unfold pastEnd. rewrite Hd, He, Hi, Hdir. reflexivity. Qed.

(** Where the cursor movement of a step lands, from a stage standing on [c]
    or from a stage without a cursor. *)
Lemma positioned_onto (s : IndexScan) (c' : IndexCursor) :
  stepsOnto s c' →
  _indexCursor (positioned s) = Some c'
  ∧ _yieldMovedCursor (positioned s) = _yieldMovedCursor s
  ∧ _hitEnd (positioned s) = negb (cursor_isEOF c') && pastEnd s (getKey c')
  ∧ isEOF (positioned s) = cursor_isEOF c' || pastEnd s (getKey c').
Proof.
  intros Hfrom.
  set (t := set_indexCursor (Some c') (upd_commonStats CommonStats.inc_works s)).
  assert (Hlow : _hitEnd s = false)
    by (destruct Hfrom as [(_ & ? & _) | (c & (_ & ? & _) & _)]; assumption).
  assert (Hpos : positioned s = checkEnd t).
  { destruct Hfrom as [(Hc & _ & _ & ->) | (c & (Hc & _ & Hm) & ->)].
    - apply positioned_first, Hc.
    - apply positioned_next; assumption. }
  assert (Ht : isEOF t = cursor_isEOF c').
  { unfold isEOF, t. cbn. rewrite Hlow. apply orb_false_r. }
  rewrite Hpos. destruct (cursor_isEOF c') eqn:Hx.
  - rewrite checkEnd_eof by (rewrite Ht; reflexivity). cbn.
    unfold isEOF. cbn. rewrite Hx. auto.
  - rewrite (checkEnd_live t c') by (rewrite ?Ht; reflexivity).
    change (pastEnd t (getKey c')) with (pastEnd s (getKey c')).
    destruct (pastEnd s (getKey c')); unfold isEOF; cbn; rewrite ?Hx, ?Hlow; auto.
Qed.

Lemma examined_onto (s : IndexScan) (c' : IndexCursor) :
  stepsOnto s c' →
  examined s =
    if cursor_isEOF c' || pastEnd s (getKey c') then None else Some (getValue c').
Proof.
  intros Hfrom. destruct (positioned_onto s c' Hfrom) as (Hc & _ & _ & Heof).
  unfold examined. rewrite Heof, Hc. reflexivity.
Qed.

(** After a step that found an entry within the bounds, the stage stands on
    that entry. *)
Lemma scanningAt_after (s : IndexScan) (ws : WorkingSet) (c' : IndexCursor) :
  stepsOnto s c' →
  cursor_isEOF c' = false → pastEnd s (getKey c') = false →
  scanningAt (stage (work s ws)) c'.
Proof.
  intros Hfrom Hx Hp.
  assert (Hm : _yieldMovedCursor s = false)
    by (destruct Hfrom as [(_ & _ & ? & _) | (c & (_ & _ & ?) & _)]; assumption).
  destruct (positioned_onto s c' Hfrom) as (Hc & Hmv & Hh & _).
  destruct (work_cursor_fields s ws) as (Hc' & Hh' & Hm').
  unfold scanningAt. rewrite Hc', Hh', Hm', Hc, Hh, Hmv, Hx, Hp, Hm. auto.
Qed.

(** What the caller sees of a step when no filter is configured. *)
Lemma observe_work_nofilter (s : IndexScan) (ws : WorkingSet) :
  _filter s = None →
  observe (work s ws) =
    match examined s with
    | None => (IS_EOF, None)
    | Some l =>
        if _shouldDedup s && bool_decide (l ∈ _returned s)
        then (NEED_TIME, None)
        else (ADVANCED, Some l)
    end.
Proof.
  intros Hnf. destruct (sameLedger_positioned s) as (_ & _ & Hflt & _).
  assert (Hmat : ∀ c l t, _filter t = None →
                 observe (materialize c l t ws) = (ADVANCED, Some l)).
  { intros c l t Ht. rewrite materialize_member. cbn zeta. rewrite Ht. cbn.
    unfold observe, emitted. cbn. rewrite lookup_insert_eq. reflexivity. }
  destruct (examined s) as [l|] eqn:Hex.
  - apply examined_Some in Hex as (c & Hc & Heof & <-).
    destruct (_shouldDedup s) eqn:Hd; cbn [andb].
    + destruct (decide (getValue c ∈ _returned s)) as [Hin|Hin].
      * rewrite (bool_decide_eq_true_2 _ Hin), (work_dup _ _ _ Hc Heof Hd Hin).
        reflexivity.
      * rewrite (bool_decide_eq_false_2 _ Hin), (work_new _ _ _ Hc Heof Hd Hin).
        apply Hmat. cbn. congruence.
    + rewrite (work_plain _ _ _ Hc Heof Hd). apply Hmat. congruence.
  - rewrite (examined_None _ _ Hex). reflexivity.
Qed.

Lemma run_Work (calls : list Call) (s : IndexScan) (ws : WorkingSet) :
  (run (Work :: calls) s ws).1.1
  = work s ws :: (run calls (stage (work s ws)) (wset (work s ws))).1.1.
Proof.
  cbn [run]. destruct (run calls (stage (work s ws)) (wset (work s ws))) as [[rs s'] ws'].
  reflexivity.
Qed.

Lemma run_Work_stage (calls : list Call) (s : IndexScan) (ws : WorkingSet) :
  (run (Work :: calls) s ws).1.2
  = (run calls (stage (work s ws)) (wset (work s ws))).1.2.
Proof.
  cbn [run]. destruct (run calls (stage (work s ws)) (wset (work s ws))) as [[rs s'] ws'].
  reflexivity.
Qed.

(** A step onto an entry within the bounds, no filter configured. *)
Lemma step_entry (s : IndexScan) (ws : WorkingSet) (c' : IndexCursor) :
  stepsOnto s c' → _filter s = None →
  cursor_isEOF c' = false → pastEnd s (getKey c') = false →
  observe (work s ws)
  = (if _shouldDedup s && bool_decide (getValue c' ∈ _returned s)
     then (NEED_TIME, None)
     else (ADVANCED, Some (getValue c')))
  ∧ scanningAt (stage (work s ws)) c'
  ∧ sameConfig s (stage (work s ws))
  ∧ _returned (stage (work s ws))
    = (if _shouldDedup s then {[getValue c']} ∪ _returned s else _returned s).
Proof.
  intros Hfrom Hnf Hx Hp.
  assert (Hex : examined s = Some (getValue c'))
    by (rewrite (examined_onto s c' Hfrom), Hx, Hp; reflexivity).
  split; [rewrite (observe_work_nofilter _ _ Hnf), Hex; reflexivity|].
  split; [apply scanningAt_after; assumption|].
  split; [apply work_config|].
  rewrite returned_work, Hex. reflexivity.
Qed.

(** A step onto the end of the index, or onto a key past the end key. *)
Lemma step_end (s : IndexScan) (ws : WorkingSet) (c' : IndexCursor) :
  stepsOnto s c' →
  cursor_isEOF c' = true ∨ pastEnd s (getKey c') = true →
  work s ws = {| ret := IS_EOF; out := None; stage := positioned s; wset := ws |}.
Proof.
  intros Hfrom Hend. apply examined_None.
  rewrite (examined_onto s c' Hfrom).
  destruct Hend as [-> | ->]; [reflexivity | rewrite orb_true_r; reflexivity].
Qed.

Lemma pastEnd_decided (s : IndexScan) (k : BSONObj) :
  isEmpty (_endKey s) = false →
  pastEnd s k =
    let cmp := Z.sgn (woCompare (_endKey s) k (keyPattern (_descriptor s))) in
    bool_decide ((cmp ≠ 0 ∧ cmp ≠ _direction s) ∨ (cmp = 0 ∧ _endKeyInclusive s = false)).
Proof. intros He. unfold pastEnd, hasHitBoundary. rewrite He. reflexivity. Qed.

(** C7. A forward scan (direction 1) of a non-multikey index with no
    filter, whose cursor, sought to the start key, yields the entries
    [(k1, A); (k2, B); (k3, C)], where k1 and k2 sort before the end key and
    k3 equals it (keys 1, 2, 3 with end key 3), and whose end key is
    exclusive: three calls to [work] return ADVANCED with a member for A,
    ADVANCED with a member for B, and IS_EOF - the entry for C is excluded. *)
Theorem exclusive_end_scan (params : IndexScanParams) (s0 : IndexScan) (ws : WorkingSet)
  (k1 k2 k3 : BSONObj) (A B C : DiskLoc) :
  IndexScan_new params None = Built s0 →
  isMultikey (descriptor params) = false →
  params_direction params = 1 →
  isEmpty (endKey params) = false →
  endKeyInclusive params = false →
  yieldsFrom (initCursor s0) [(k1, A); (k2, B); (k3, C)] →
  woCompare (endKey params) k1 (keyPattern (descriptor params)) > 0 →
  woCompare (endKey params) k2 (keyPattern (descriptor params)) > 0 →
  woCompare (endKey params) k3 (keyPattern (descriptor params)) = 0 →
  map observe (run [Work; Work; Work] s0 ws).1.1
  = [(ADVANCED, Some A); (ADVANCED, Some B); (IS_EOF, None)].
Proof.
  intros Hnew Hmk Hdir Hne Hincl Hy Hw1 Hw2 Hw3.
  apply IndexScan_new_Built in Hnew
    as (Hc0 & Hr0 & Hh0 & Hm0 & Hf0 & Hd0 & Hdesc & _ & Hek & Hei & Hdi & _).
  rewrite Hmk in Hd0.
  cbn [yieldsFrom] in Hy.
  destruct Hy as (Hx1 & Hk1 & Hv1 & Hx2 & Hk2 & Hv2 & Hx3 & Hk3 & Hv3 & Hx4).
  set (c1 := initCursor s0) in *.
  assert (Hne0 : isEmpty (_endKey s0) = false) by (rewrite Hek; exact Hne).
  assert (Hp1 : pastEnd s0 k1 = false).
  { rewrite (pastEnd_decided _ _ Hne0). cbn zeta. rewrite Hek, Hdesc, Hdi, Hdir, Hei, Hincl.
    apply bool_decide_eq_false_2. intros [[? ?]|[? ?]]; lia || discriminate. }
  assert (Hp2 : pastEnd s0 k2 = false).
  { rewrite (pastEnd_decided _ _ Hne0). cbn zeta. rewrite Hek, Hdesc, Hdi, Hdir, Hei, Hincl.
    apply bool_decide_eq_false_2. intros [[? ?]|[? ?]]; lia || discriminate. }
  assert (Hp3 : pastEnd s0 k3 = true).
  { rewrite (pastEnd_decided _ _ Hne0). cbn zeta. rewrite Hek, Hdesc, Hdi, Hdir, Hei, Hincl.
    apply bool_decide_eq_true_2. right. rewrite Hw3. split; reflexivity. }
  rewrite !run_Work. cbn [run map fst].
  (* first step: the seek lands on (k1, A) *)
  destruct (step_entry s0 ws c1) as (Ho1 & Hs1 & Hcfg1 & Hr1);
    [left; auto | exact Hf0 | exact Hx1 | rewrite Hk1; exact Hp1 |].
  set (r1 := work s0 ws) in *.
  (* second step: advance onto (k2, B) *)
  destruct (step_entry (stage r1) (wset r1) (next c1)) as (Ho2 & Hs2 & Hcfg2 & Hr2);
    [right; eauto
    | destruct Hcfg1 as (_ & _ & _ & _ & -> & _); exact Hf0
    | exact Hx2
    | rewrite Hk2, (pastEnd_config _ _ _ Hcfg1); exact Hp2 |].
  set (r2 := work (stage r1) (wset r1)) in *.
  (* third step: (k3, C) equals the exclusive end key *)
  pose proof (step_end (stage r2) (wset r2) (next (next c1))) as He3.
  rewrite Ho1, Ho2, He3.
  - destruct Hcfg1 as (_ & _ & _ & _ & _ & Hsd1).
    destruct Hcfg2 as (_ & _ & _ & _ & _ & Hsd2).
    rewrite Hsd1, Hd0, Hv1, Hv2. reflexivity.
  - right; eauto.
  - right. rewrite Hk3, (pastEnd_config _ _ _ Hcfg2), (pastEnd_config _ _ _ Hcfg1).
    exact Hp3.
Qed.

(** C2. A scan of a multikey index (so the stage deduplicates) with no
    filter, whose cursor, sought to the start key, yields the entries
    [(k1, L); (k2, L); (k3, M)] within the bounds and nothing more: the calls
    to [work] return ADVANCED with a member for L, then NEED_TIME for the
    second entry pointing at L, then ADVANCED with a member for M, then IS_EOF
    - exactly two ADVANCED results; one duplicate was dropped out of three
    locations tested. *)
Theorem multikey_dedup_scan (params : IndexScanParams) (s0 : IndexScan) (ws : WorkingSet)
  (k1 k2 k3 : BSONObj) (L M : DiskLoc) :
  IndexScan_new params None = Built s0 →
  isMultikey (descriptor params) = true →
  yieldsFrom (initCursor s0) [(k1, L); (k2, L); (k3, M)] →
  pastEnd s0 k1 = false → pastEnd s0 k2 = false → pastEnd s0 k3 = false →
  L ≠ M →
  map observe (run [Work; Work; Work; Work] s0 ws).1.1
  = [(ADVANCED, Some L); (NEED_TIME, None); (ADVANCED, Some M); (IS_EOF, None)]
  ∧ _returned (run [Work; Work; Work; Work] s0 ws).1.2 = {[L; M]}.
Proof.
  intros Hnew Hmk Hy Hp1 Hp2 Hp3 HLM.
  apply IndexScan_new_Built in Hnew
    as (Hc0 & Hr0 & Hh0 & Hm0 & Hf0 & Hd0 & _).
  rewrite Hmk in Hd0.
  cbn [yieldsFrom] in Hy.
  destruct Hy as (Hx1 & Hk1 & Hv1 & Hx2 & Hk2 & Hv2 & Hx3 & Hk3 & Hv3 & Hx4).
  set (c1 := initCursor s0) in *.
  rewrite !run_Work, !run_Work_stage. cbn [run map fst snd].
  (* first step: the seek lands on (k1, L) *)
  destruct (step_entry s0 ws c1) as (Ho1 & Hs1 & Hcfg1 & Hr1);
    [left; auto | exact Hf0 | exact Hx1 | rewrite Hk1; exact Hp1 |].
  set (r1 := work s0 ws) in *.
  pose proof Hcfg1 as (_ & _ & _ & _ & Hf1 & Hd1).
  rewrite Hd0, Hv1, Hr0 in Ho1, Hr1. rewrite Hf0 in Hf1. rewrite Hd0 in Hd1.
  (* second step: (k2, L) is a duplicate *)
  destruct (step_entry (stage r1) (wset r1) (next c1)) as (Ho2 & Hs2 & Hcfg2 & Hr2);
    [right; eauto | exact Hf1 | exact Hx2
    | rewrite Hk2, (pastEnd_config _ _ _ Hcfg1); exact Hp2 |].
  set (r2 := work (stage r1) (wset r1)) in *.
  pose proof Hcfg2 as (_ & _ & _ & _ & Hf2 & Hd2).
  rewrite Hd1, Hv2, Hr1 in Ho2, Hr2. rewrite Hf1 in Hf2. rewrite Hd1 in Hd2.
  (* third step: (k3, M) is new *)
  destruct (step_entry (stage r2) (wset r2) (next (next c1)))
    as (Ho3 & Hs3 & Hcfg3 & Hr3);
    [right; eauto | exact Hf2 | exact Hx3
    | rewrite Hk3, (pastEnd_config _ _ _ Hcfg2), (pastEnd_config _ _ _ Hcfg1);
      exact Hp3 |].
  set (r3 := work (stage r2) (wset r2)) in *.
  rewrite Hd2, Hv3, Hr2 in Ho3, Hr3.
  (* fourth step: the cursor is exhausted *)
  rewrite (step_end (stage r3) (wset r3) (next (next (next c1))))
    by (eauto || (right; eauto)).
  rewrite Ho1, Ho2, Ho3. cbn [observe ret emitted out stage].
  destruct (sameLedger_positioned (stage r3)) as (-> & _). rewrite Hr3.
  assert (HL0 : L ∉ (∅ : gset DiskLoc)) by apply not_elem_of_empty.
  assert (HL1 : L ∈ ({[L]} ∪ ∅ : gset DiskLoc))
    by (apply elem_of_union_l, elem_of_singleton; reflexivity).
  assert (HM2 : M ∉ ({[L]} ∪ ({[L]} ∪ ∅) : gset DiskLoc)).
  { rewrite !elem_of_union, elem_of_singleton, elem_of_empty. intuition congruence. }
  rewrite (bool_decide_eq_false_2 _ HL0), (bool_decide_eq_true_2 _ HL1),
    (bool_decide_eq_false_2 _ HM2).
  split; [reflexivity|].
  apply set_eq. intros x.
  rewrite !elem_of_union, !elem_of_singleton, elem_of_empty. tauto.
Qed.

(** *** More on single operations *)

(** X1. [sgn] returns a value in the set {-1, 0, 1}, and that value is the
    sign of its argument: 0 exactly for 0, 1 exactly for the positive
    numbers, -1 exactly for the negative ones. *)
Theorem sgn_sign (i : Z) :
  (sgn i = -1 ∨ sgn i = 0 ∨ sgn i = 1)
  ∧ (sgn i = 0 ↔ i = 0)
  ∧ (sgn i = 1 ↔ 0 < i)
  ∧ (sgn i = -1 ↔ i < 0).
Proof.
  unfold sgn. destruct (Z.eqb_spec i 0) as [->|Hne].
  - repeat split; intros; lia || auto.
  - destruct (Z.gtb_spec i 0); repeat split; intros; lia || auto.
Qed.

Lemma isEOF_dedup (c : IndexCursor) (s : IndexScan) (ws : WorkingSet) :
  isEOF (stage (dedup c s ws)) = isEOF s.
Proof.
  unfold dedup. destruct (_shouldDedup s); [destruct (bool_decide _); [reflexivity|]|];
    rewrite materialize_member; cbn zeta;
    (destruct (Filter_passes _ _); [destruct (_filter _)|]); reflexivity.
Qed.

Lemma isEOF_after_work (s : IndexScan) (ws : WorkingSet) :
  isEOF (stage (work s ws)) = isEOF (positioned s).
Proof.
  unfold work. fold (positioned s).
  destruct (isEOF (positioned s)) eqn:Heof; [exact Heof|].
  destruct (_indexCursor (positioned s)) as [c|]; [|exact Heof].
  rewrite isEOF_dedup. exact Heof.
Qed.

(** X2. The value [work] returns and [isEOF] agree: a step returns IS_EOF
    exactly when [isEOF] holds on the stage it leaves behind; after ADVANCED
    or NEED_TIME the stage is not at EOF. *)
Theorem work_IS_EOF_iff_isEOF (s : IndexScan) (ws : WorkingSet) :
  (ret (work s ws) = IS_EOF ↔ isEOF (stage (work s ws)) = true)
  ∧ (ret (work s ws) = ADVANCED ∨ ret (work s ws) = NEED_TIME
     ↔ isEOF (stage (work s ws)) = false).
Proof.
  rewrite isEOF_after_work.
  pose proof (work_IS_EOF s ws) as Hiff.
  split; [exact Hiff|].
  destruct (isEOF (positioned s)).
  - split; [|discriminate]. destruct Hiff as [_ Hr]. rewrite (Hr eq_refl).
    intros [?|?]; discriminate.
  - split; [reflexivity|]. intros _.
    destruct (ret (work s ws)); auto. destruct Hiff as [Hl _]. discriminate (Hl eq_refl).
Qed.

(** X3. Every member a step hands out has passed the filter, if one is
    configured: an ADVANCED step writes the handle of a live member tagged
    LOC_AND_IDX that holds the location under the cursor and a single key
    datum (the descriptor's key pattern with the cursor's key), and
    [Filter_passes] holds of that member. *)
Theorem advanced_member_passes_filter (s : IndexScan) (ws : WorkingSet) :
  ret (work s ws) = ADVANCED →
  ∃ (id : WorkingSetID) (c : IndexCursor) (m : WorkingSetMember),
    out (work s ws) = Some id
    ∧ _indexCursor (stage (work s ws)) = Some c
    ∧ _data (wset (work s ws)) !! id = Some m
    ∧ loc m = getValue c
    ∧ member_keyData m
      = [{| indexKeyPattern := keyPattern (_descriptor s); keyData := getKey c |}]
    ∧ state m = LOC_AND_IDX
    ∧ Filter_passes m (_filter s) = true.
Proof.
  intros Hret.
  destruct (sameLedger_positioned s) as (_ & _ & Hflt & _ & Hdesc & _).
  destruct (work_cursor_fields s ws) as (Hcur & _).
  revert Hret Hcur. unfold work. fold (positioned s).
  destruct (isEOF (positioned s)) eqn:Heof; [discriminate|].
  destruct (_indexCursor (positioned s)) as [c|]; [|discriminate].
  intros Hret Hcur. exists (_nextId ws), c, (candidate (positioned s) c (getValue c)).
  revert Hret Hcur. unfold dedup.
  destruct (_shouldDedup _); [destruct (bool_decide _); [discriminate|]|];
    rewrite materialize_member; cbn zeta;
    (destruct (Filter_passes _ _) eqn:Hp; [|discriminate]);
    intros _ Hcur; cbn [out wset _data]; rewrite lookup_insert_eq;
    (split; [reflexivity|]); (split; [exact Hcur|]); (split; [reflexivity|]);
    (split; [reflexivity|]); (split; [cbn; rewrite Hdesc; reflexivity|]);
    (split; [reflexivity|]); cbn in Hp; rewrite Hflt in Hp; exact Hp.
Qed.

(** X4. [work] touches no member of the working set but the one behind the
    handle it takes: the record behind every other handle is the same before
    and after the step, on every exit. *)
Theorem work_touches_only_its_handle (s : IndexScan) (ws : WorkingSet) (id : WorkingSetID) :
  id ≠ _nextId ws →
  _data (wset (work s ws)) !! id = _data ws !! id.
Proof.
  intros Hid. unfold work.
  destruct (isEOF _); [reflexivity|].
  destruct (_indexCursor _) as [c|]; [|reflexivity].
  unfold dedup.
  destruct (_shouldDedup _); [destruct (bool_decide _); [reflexivity|]|];
    rewrite materialize_member; cbn zeta;
    (destruct (Filter_passes _ _); cbn [wset _data WorkingSet_free]);
    rewrite ?lookup_delete_ne by congruence;
    rewrite !lookup_insert_ne by congruence; reflexivity.
Qed.

(** *** Whole scans *)

Lemma walks_config (s s' : IndexScan) (c : IndexCursor) (es : list (BSONObj * DiskLoc)) :
  sameConfig s s' → walks s c es → walks s' c es.
Proof.
  intros Hcfg. revert c. induction es as [|[k l] es IH]; intros c; cbn [walks].
  - rewrite (pastEnd_config _ _ _ Hcfg). tauto.
  - rewrite (pastEnd_config _ _ _ Hcfg). intros (? & ? & ? & ? & Hw). auto 10.
Qed.

Lemma entryPasses_config (s s' : IndexScan) (k : BSONObj) (l : DiskLoc) :
  sameConfig s s' → entryPasses s' k l = entryPasses s k l.
Proof.
  intros (Hd & _ & _ & _ & Hf & _). unfold entryPasses. rewrite Hd, Hf. reflexivity.
Qed.

Lemma scanTrace_ext (dedups : bool) (p q : BSONObj → DiskLoc → bool)
  (es : list (BSONObj * DiskLoc)) :
  (∀ k l, p k l = q k l) →
  ∀ seen, scanTrace dedups p seen es = scanTrace dedups q seen es.
Proof.
  intros Hpq. induction es as [|[k l] es IH]; intros seen; [reflexivity|].
  cbn [scanTrace]. rewrite Hpq, IH. reflexivity.
Qed.

(** What the caller sees of a step that gets past the EOF test. *)
Lemma observe_work_at (s : IndexScan) (ws : WorkingSet) (c : IndexCursor) :
  _indexCursor (positioned s) = Some c → isEOF (positioned s) = false →
  observe (work s ws)
  = (if _shouldDedup s && bool_decide (getValue c ∈ _returned s)
     then (NEED_TIME, None)
     else if entryPasses s (getKey c) (getValue c)
          then (ADVANCED, Some (getValue c))
          else (NEED_TIME, None)).
Proof.
  intros Hc Heof.
  destruct (sameLedger_positioned s) as (_ & _ & Hflt & _ & Hdesc & _).
  assert (Hmat : ∀ t, _filter t = _filter s → _descriptor t = _descriptor s →
                 observe (materialize c (getValue c) t ws)
                 = (if entryPasses s (getKey c) (getValue c)
                    then (ADVANCED, Some (getValue c))
                    else (NEED_TIME, None))).
  { intros t Hft Hdt. rewrite materialize_member. cbn zeta.
    unfold candidate, entryPasses. rewrite Hft, Hdt.
    destruct (Filter_passes _ _); [|reflexivity].
    unfold observe, emitted. cbn. rewrite lookup_insert_eq. reflexivity. }
  destruct (_shouldDedup s) eqn:Hd; cbn [andb].
  - destruct (decide (getValue c ∈ _returned s)) as [Hin|Hin].
    + rewrite (bool_decide_eq_true_2 _ Hin), (work_dup _ _ _ Hc Heof Hd Hin).
      reflexivity.
    + rewrite (bool_decide_eq_false_2 _ Hin), (work_new _ _ _ Hc Heof Hd Hin).
      apply Hmat; cbn; assumption.
  - rewrite (work_plain _ _ _ Hc Heof Hd). apply Hmat; assumption.
Qed.

(** X5. A scan that is not interrupted works through the entries of its
    range in cursor order and then ends: if the next step moves the cursor
    onto the first of the entries [es], which the cursor walks through within
    the bounds before it is exhausted or passes the end key, then
    [length es + 1] calls to [work] return, entry by entry: NEED_TIME when the
    scan deduplicates and the location is already recorded; otherwise
    ADVANCED with the entry's location when there is no filter or the filter
    passes the member built from the entry, and NEED_TIME when the filter
    rejects it - the location being recorded either way; and finally
    IS_EOF. *)
Theorem scan_trace (es : list (BSONObj * DiskLoc)) (s : IndexScan) (ws : WorkingSet)
  (c : IndexCursor) :
  stepsOnto s c →
  walks s c es →
  map observe (run (replicate (S (length es)) Work) s ws).1.1
  = scanTrace (_shouldDedup s) (entryPasses s) (_returned s) es.
Proof.
  revert s ws c. induction es as [|[k l] es IH]; intros s ws c Hon Hw.
  - cbn [length replicate]. rewrite run_Work. cbn [run map fst scanTrace].
    rewrite (step_end s ws c Hon Hw). reflexivity.
  - cbn [walks] in Hw. destruct Hw as (Hx & Hp & Hk & Hv & Hw).
    destruct (positioned_onto s c Hon) as (Hc & _ & _ & Heof).
    rewrite Hx, Hp in Heof. cbn in Heof.
    pose proof (observe_work_at s ws c Hc Heof) as Hobs.
    pose proof (scanningAt_after s ws c Hon Hx Hp) as Hat.
    pose proof (work_config s ws) as Hcfg.
    pose proof (returned_work s ws) as Hret.
    rewrite (examined_onto s c Hon), Hx, Hp in Hret. cbn in Hret.
    change (replicate (S (length ((k, l) :: es))) Work)
      with (Work :: replicate (S (length es)) Work).
    rewrite run_Work. cbn [map scanTrace]. rewrite Hobs, Hk, Hv. f_equal.
    pose proof Hcfg as (_ & _ & _ & _ & _ & Hd).
    rewrite (IH (stage (work s ws)) (wset (work s ws)) (next c)).
    + rewrite Hd, Hret, Hv. apply scanTrace_ext.
      intros k' l'. apply entryPasses_config, Hcfg.
    + right. exists c. split; [exact Hat | reflexivity].
    + apply (walks_config s); assumption.
Qed.

(** *** The ledger across calls *)

Lemma emitted_work (s : IndexScan) (ws : WorkingSet) :
  emitted (work s ws)
  = match ret (work s ws) with
    | ADVANCED => examined s
    | _ => None
    end.
Proof.
  unfold examined, work. fold (positioned s).
  destruct (isEOF (positioned s)); [reflexivity|].
  destruct (_indexCursor (positioned s)) as [c|]; [|reflexivity].
  unfold dedup.
  destruct (_shouldDedup _); [destruct (bool_decide _); [reflexivity|]|];
    rewrite materialize_member; cbn zeta;
    (destruct (Filter_passes _ _); [|reflexivity]);
    unfold emitted; cbn; rewrite lookup_insert_eq; reflexivity.
Qed.

Lemma returned_grows (s : IndexScan) (ws : WorkingSet) :
  _returned s ⊆ _returned (stage (work s ws)).
Proof.
  rewrite returned_work. destruct (examined s); [destruct (_shouldDedup s)|];
    try reflexivity. apply union_subseteq_r.
Qed.

Lemma returned_grows_run (calls : list Call) :
  Forall (λ call, isInvalidate call = false) calls →
  ∀ (s : IndexScan) (ws : WorkingSet),
    _returned s ⊆ _returned (run calls s ws).1.2
    ∧ _shouldDedup (run calls s ws).1.2 = _shouldDedup s.
Proof.
  induction 1 as [|call calls Hcall _ IH]; intros s ws; [cbn; auto|].
  destruct call; [| | |discriminate]; cbn [run].
  - specialize (IH (stage (work s ws)) (wset (work s ws))).
    destruct (run calls (stage (work s ws)) (wset (work s ws))) as [[rs s'] ws'].
    cbn [fst snd] in *. destruct IH as [Hsub Hd].
    rewrite Hd, shouldDedup_work. split; [|reflexivity].
    transitivity (_returned (stage (work s ws))); [apply returned_grows | exact Hsub].
  - destruct (IH (prepareToYield s) ws) as [Hsub Hd].
    rewrite returned_prepareToYield in Hsub. rewrite shouldDedup_prepareToYield in Hd.
    auto.
  - destruct (IH (recoverFromYield s) ws) as [Hsub Hd].
    destruct (recoverFromYield_ledger s) as (Hr & Hs & _).
    rewrite Hr in Hsub. rewrite Hs in Hd. auto.
Qed.

(** X6. A deduplicating scan hands out no location twice, however the
    steps are interleaved with yields and recoveries, as long as nothing is
    invalidated: the locations of the ADVANCED results of any such run are
    pairwise distinct, none of them was recorded before the run, and all of
    them are recorded after it. *)
Theorem no_location_emitted_twice (calls : list Call) (s : IndexScan) (ws : WorkingSet) :
  _shouldDedup s = true →
  Forall (λ call, isInvalidate call = false) calls →
  NoDup (emissions (run calls s ws).1.1)
  ∧ (∀ l, l ∈ emissions (run calls s ws).1.1 →
          (l ∉ _returned s) ∧ (l ∈ _returned (run calls s ws).1.2)).
Proof.
  intros Hd Hni. revert s ws Hd.
  induction Hni as [|call calls Hcall Hrest IH]; intros s ws Hd.
  - cbn. split; [constructor|]. intros l Hl. inversion Hl.
  - destruct call; [| | |discriminate]; cbn [run].
    + pose proof (shouldDedup_work s ws) as Hd'. rewrite Hd in Hd'.
      specialize (IH (stage (work s ws)) (wset (work s ws)) Hd').
      pose proof (returned_grows s ws) as Hsub.
      pose proof (emitted_work s ws) as Hem.
      pose proof (returned_work s ws) as Hrw. rewrite Hd in Hrw.
      destruct (returned_grows_run calls Hrest (stage (work s ws)) (wset (work s ws)))
        as [Hlate _].
      destruct (run calls (stage (work s ws)) (wset (work s ws))) as [[rs s'] ws'].
      cbn [fst snd emissions] in *. destruct IH as [Hnd Hall].
      destruct (emitted (work s ws)) as [l|] eqn:Hel.
      * assert (Hex : examined s = Some l)
          by (destruct (ret (work s ws)); congruence).
        rewrite Hex in Hrw.
        assert (Hfresh : l ∉ _returned s).
        { apply examined_Some in Hex as (c & Hc & Heof & <-).
          intros Hin. rewrite (work_dup _ _ _ Hc Heof Hd Hin) in Hel. discriminate. }
        assert (Hrec : l ∈ _returned (stage (work s ws))).
        { rewrite Hrw. apply elem_of_union_l, elem_of_singleton. reflexivity. }
        split.
        -- constructor; [|exact Hnd]. intros Hin. apply Hall in Hin as [Hno _].
           exact (Hno Hrec).
        -- intros l' [->|Hin]%elem_of_cons.
           ++ split; [exact Hfresh | apply Hlate, Hrec].
           ++ apply Hall in Hin as [Hno Hyes]. split; [|exact Hyes].
              intros Hin'. apply Hno, Hsub, Hin'.
      * split; [exact Hnd|]. intros l' Hin. apply Hall in Hin as [Hno Hyes].
        split; [|exact Hyes]. intros Hin'. apply Hno, Hsub, Hin'.
    + rewrite <- (returned_prepareToYield s). apply IH.
      rewrite shouldDedup_prepareToYield. exact Hd.
    + destruct (recoverFromYield_ledger s) as (Hr & Hs & _).
      rewrite <- Hr. apply IH. rewrite Hs. exact Hd.
Qed.

(** *** The statistics *)

Lemma tally_checkEnd (s : IndexScan) :
  tally (_commonStats (checkEnd s)) = tally (_commonStats s).
Proof. destruct (checkEnd_frame s) as (b & e & [-> | ->]); reflexivity. Qed.

Lemma tally_positioned (s : IndexScan) :
  tally (_commonStats (positioned s))
  = tally (CommonStats.inc_works (_commonStats s)).
Proof.
  unfold positioned, positionCursor. cbn.
  destruct (_indexCursor s); [destruct (_yieldMovedCursor s); [reflexivity|]|];
    rewrite tally_checkEnd; reflexivity.
Qed.

Lemma tally_work (s : IndexScan) (ws : WorkingSet) :
  tally (_commonStats (stage (work s ws)))
  = ((CommonStats.works (_commonStats s) + 1)%N,
     CommonStats.yields (_commonStats s),
     CommonStats.unyields (_commonStats s),
     CommonStats.invalidates (_commonStats s),
     (CommonStats.advanced (_commonStats s)
      + oneIf (returned_is ADVANCED (work s ws)))%N,
     (CommonStats.needTime (_commonStats s)
      + oneIf (returned_is NEED_TIME (work s ws)))%N).
Proof.
  pose proof (tally_positioned s) as Hp. unfold tally in Hp. cbn in Hp.
  injection Hp as Hw Hy Hu Hi Ha Hn.
  unfold work. fold (positioned s).
  assert (Heofcase :
    tally (_commonStats (positioned s))
    = ((CommonStats.works (_commonStats s) + 1)%N,
       CommonStats.yields (_commonStats s), CommonStats.unyields (_commonStats s),
       CommonStats.invalidates (_commonStats s),
       (CommonStats.advanced (_commonStats s) + 0)%N,
       (CommonStats.needTime (_commonStats s) + 0)%N)).
  { unfold tally. rewrite Hw, Hy, Hu, Hi, Ha, Hn, !N.add_0_r. reflexivity. }
  destruct (isEOF (positioned s)); [exact Heofcase|].
  destruct (_indexCursor (positioned s)) as [c|]; [|exact Heofcase].
  unfold dedup.
  destruct (_shouldDedup _); [destruct (bool_decide _)|];
    rewrite ?materialize_member; cbn zeta;
    try (destruct (Filter_passes _ _); [destruct (_filter _)|]);
    unfold tally, returned_is, oneIf; cbn;
    rewrite Hw, Hy, Hu, Hi, Ha, Hn, ?N.add_0_r; reflexivity.
Qed.

Lemma tally_prepareToYield (s : IndexScan) :
  tally (_commonStats (prepareToYield s))
  = tally (CommonStats.inc_yields (_commonStats s)).
Proof.
  unfold prepareToYield. destruct (_indexCursor _); [|reflexivity].
  destruct (isEOF _); reflexivity.
Qed.

Lemma tally_recoverFromYield (s : IndexScan) :
  tally (_commonStats (recoverFromYield s))
  = tally (CommonStats.inc_unyields (_commonStats s)).
Proof.
  unfold recoverFromYield. destruct (_indexCursor _); [|reflexivity].
  destruct (isEOF _); [reflexivity|]. cbn zeta.
  destruct (_ || _); [|reflexivity]. rewrite tally_checkEnd. reflexivity.
Qed.

Lemma tally_invalidate (dl : DiskLoc) (s : IndexScan) :
  tally (_commonStats (invalidate dl s))
  = tally (CommonStats.inc_invalidates (_commonStats s)).
Proof. unfold invalidate. destruct (bool_decide _); reflexivity. Qed.

(** X7. The common counters count what happened: over any sequence of calls,
    [works], [yields], [unyields] and [invalidates] go up by the number of
    calls to [work], [prepareToYield], [recoverFromYield] and [invalidate],
    [advanced] by the number of steps that returned ADVANCED and [needTime] by
    the number that returned NEED_TIME; a step that returns IS_EOF is counted
    in [works] only. *)
Theorem common_counters_count (calls : list Call) (s : IndexScan) (ws : WorkingSet) :
  tally (_commonStats (run calls s ws).1.2)
  = ((CommonStats.works (_commonStats s) + countCalls isWork calls)%N,
     (CommonStats.yields (_commonStats s) + countCalls isPrepareToYield calls)%N,
     (CommonStats.unyields (_commonStats s) + countCalls isRecoverFromYield calls)%N,
     (CommonStats.invalidates (_commonStats s) + countCalls isInvalidate calls)%N,
     (CommonStats.advanced (_commonStats s)
      + countRet ADVANCED (run calls s ws).1.1)%N,
     (CommonStats.needTime (_commonStats s)
      + countRet NEED_TIME (run calls s ws).1.1)%N)
  ∧ (countCalls isWork calls
     = countRet ADVANCED (run calls s ws).1.1
       + countRet NEED_TIME (run calls s ws).1.1
       + countRet IS_EOF (run calls s ws).1.1)%N.
Proof.
  revert s ws. induction calls as [|call calls IH]; intros s ws.
  - cbn. unfold tally. rewrite !N.add_0_r. auto.
  - destruct call; cbn [run countCalls isWork isPrepareToYield isRecoverFromYield
                          isInvalidate].
    + specialize (IH (stage (work s ws)) (wset (work s ws))).
      pose proof (tally_work s ws) as Hw.
      destruct (run calls (stage (work s ws)) (wset (work s ws))) as [[rs s'] ws'].
      cbn [fst snd countRet] in *. destruct IH as [IH Hsum].
      unfold tally in *. injection Hw as F1 F2 F3 F4 F5 F6.
      injection IH as E1 E2 E3 E4 E5 E6. unfold oneIf, returned_is in *.
      destruct (ret (work s ws));
        (split; [repeat match goal with
                        | |- (_, _) = (_, _) => apply (f_equal2 pair)
                        end|]); lia.
    + destruct (IH (prepareToYield s) ws) as [IH' Hsum].
      pose proof (tally_prepareToYield s) as Hw.
      unfold tally in *. cbn in Hw. injection Hw as F1 F2 F3 F4 F5 F6.
      injection IH' as E1 E2 E3 E4 E5 E6.
      split; [repeat match goal with |- (_, _) = (_, _) => apply (f_equal2 pair) end;
              lia | exact Hsum].
    + destruct (IH (recoverFromYield s) ws) as [IH' Hsum].
      pose proof (tally_recoverFromYield s) as Hw.
      unfold tally in *. cbn in Hw. injection Hw as F1 F2 F3 F4 F5 F6.
      injection IH' as E1 E2 E3 E4 E5 E6.
      split; [repeat match goal with |- (_, _) = (_, _) => apply (f_equal2 pair) end;
              lia | exact Hsum].
    + destruct (IH (invalidate dl s) ws) as [IH' Hsum].
      pose proof (tally_invalidate dl s) as Hw.
      unfold tally in *. cbn in Hw. injection Hw as F1 F2 F3 F4 F5 F6.
      injection IH' as E1 E2 E3 E4 E5 E6.
      split; [repeat match goal with |- (_, _) = (_, _) => apply (f_equal2 pair) end;
              lia | exact Hsum].
Qed.

Lemma prepareToYield_config (s : IndexScan) : sameConfig s (prepareToYield s).
Proof.
  unfold prepareToYield. destruct (_indexCursor _); [|repeat split].
  destruct (isEOF _); repeat split.
Qed.

Lemma recoverFromYield_config (s : IndexScan) : sameConfig s (recoverFromYield s).
Proof.
  unfold recoverFromYield. destruct (_indexCursor _); [|repeat split].
  destruct (isEOF _); [repeat split|].
  cbn zeta. destruct (_ || _); [|repeat split].
  match goal with |- context [checkEnd ?t] =>
    destruct (sameLedger_checkEnd t) as (_ & Hs & Hf & _ & Hd & He & Hi & Hdir) end.
  unfold sameConfig. rewrite Hs, Hf, Hd, He, Hi, Hdir. repeat split.
Qed.

Lemma invalidate_config (dl : DiskLoc) (s : IndexScan) : sameConfig s (invalidate dl s).
Proof. unfold invalidate. destruct (bool_decide _); repeat split. Qed.

Lemma hasFilter_config (s s' : IndexScan) : sameConfig s s' → hasFilter s' = hasFilter s.
Proof. intros (_ & _ & _ & _ & Hf & _). unfold hasFilter. rewrite Hf. reflexivity. Qed.

Lemma specific_work (s : IndexScan) (ws : WorkingSet) :
  let r := work s ws in
  let ss := _specificStats s in
  let ss' := _specificStats (stage r) in
  IndexScanStats.dupsTested ss'
  = (IndexScanStats.dupsTested ss
     + oneIf (_shouldDedup s && negb (returned_is IS_EOF r)))%N
  ∧ IndexScanStats.matchTested ss'
    = (IndexScanStats.matchTested ss
       + oneIf (hasFilter s && returned_is ADVANCED r))%N
  ∧ (IndexScanStats.dupsDropped ss ≤ IndexScanStats.dupsDropped ss')%N
  ∧ (IndexScanStats.dupsDropped ss'
     ≤ IndexScanStats.dupsDropped ss
       + oneIf (_shouldDedup s && returned_is NEED_TIME r))%N
  ∧ (hasFilter s = false →
     IndexScanStats.dupsDropped ss'
     = (IndexScanStats.dupsDropped ss
        + oneIf (_shouldDedup s && returned_is NEED_TIME r))%N).
Proof.
  cbn zeta.
  destruct (sameLedger_positioned s) as (_ & Hs & Hf & Hst & _).
  unfold work, hasFilter. fold (positioned s). rewrite <- Hs, <- Hf, <- Hst.
  destruct (isEOF (positioned s)).
  { cbn. destruct (_shouldDedup _), (_filter _); cbn; repeat split; lia. }
  destruct (_indexCursor (positioned s)) as [c|].
  2: { cbn. destruct (_shouldDedup _), (_filter _); cbn; repeat split; lia. }
  unfold dedup.
  destruct (_shouldDedup (positioned s)); [destruct (bool_decide _)|];
    rewrite ?materialize_member; cbn zeta; cbn [_filter set_returned upd_specificStats];
    destruct (_filter (positioned s)); cbn [Filter_passes];
    try destruct (m _); cbn; repeat split; intros; lia || congruence.
Qed.

Lemma specific_counters_run (calls : list Call) :
  ∀ (s : IndexScan) (ws : WorkingSet),
    let rs := (run calls s ws).1.1 in
    let ss := _specificStats s in
    let ss' := _specificStats (run calls s ws).1.2 in
    IndexScanStats.dupsTested ss'
    = (IndexScanStats.dupsTested ss
       + if _shouldDedup s then countRet ADVANCED rs + countRet NEED_TIME rs else 0)%N
    ∧ IndexScanStats.matchTested ss'
      = (IndexScanStats.matchTested ss
         + if hasFilter s then countRet ADVANCED rs else 0)%N
    ∧ (IndexScanStats.dupsDropped ss ≤ IndexScanStats.dupsDropped ss')%N
    ∧ (IndexScanStats.dupsDropped ss'
       ≤ IndexScanStats.dupsDropped ss
         + if _shouldDedup s then countRet NEED_TIME rs else 0)%N
    ∧ (hasFilter s = false →
       IndexScanStats.dupsDropped ss'
       = (IndexScanStats.dupsDropped ss
          + if _shouldDedup s then countRet NEED_TIME rs else 0)%N).
Proof.
  induction calls as [|call calls IH]; intros s ws; cbn zeta.
  - cbn. destruct (_shouldDedup s), (hasFilter s); repeat split; intros; lia.
  - destruct call; cbn [run].
    + specialize (IH (stage (work s ws)) (wset (work s ws))).
      pose proof (specific_work s ws) as Hw.
      pose proof (work_config s ws) as Hcfg.
      pose proof (hasFilter_config _ _ Hcfg) as Hhf.
      destruct Hcfg as (_ & _ & _ & _ & _ & Hsd).
      destruct (run calls (stage (work s ws)) (wset (work s ws))) as [[rs s'] ws'].
      cbn [fst snd countRet] in *. rewrite Hsd, Hhf in IH.
      destruct IH as (I1 & I2 & I3 & I4 & I5). destruct Hw as (W1 & W2 & W3 & W4 & W5).
      unfold oneIf, returned_is in *.
      destruct (_shouldDedup s), (hasFilter s), (ret (work s ws)); cbn in *;
        repeat split; intros; try specialize (I5 eq_refl); try specialize (W5 eq_refl);
        lia.
    + specialize (IH (prepareToYield s) ws).
      pose proof (prepareToYield_config s) as Hcfg.
      rewrite (hasFilter_config _ _ Hcfg) in IH.
      destruct Hcfg as (_ & _ & _ & _ & _ & Hsd). rewrite Hsd in IH.
      assert (Hst : _specificStats (prepareToYield s) = _specificStats s).
      { unfold prepareToYield. destruct (_indexCursor _); [|reflexivity].
        destruct (isEOF _); reflexivity. }
      cbn zeta in IH. rewrite Hst in IH. exact IH.
    + specialize (IH (recoverFromYield s) ws).
      pose proof (recoverFromYield_config s) as Hcfg.
      rewrite (hasFilter_config _ _ Hcfg) in IH.
      destruct Hcfg as (_ & _ & _ & _ & _ & Hsd). rewrite Hsd in IH.
      assert (Hst :
        IndexScanStats.dupsTested (_specificStats (recoverFromYield s))
        = IndexScanStats.dupsTested (_specificStats s)
        ∧ IndexScanStats.dupsDropped (_specificStats (recoverFromYield s))
          = IndexScanStats.dupsDropped (_specificStats s)
        ∧ IndexScanStats.matchTested (_specificStats (recoverFromYield s))
          = IndexScanStats.matchTested (_specificStats s)).
      { unfold recoverFromYield. destruct (_indexCursor _); [|repeat split].
        destruct (isEOF _); [repeat split|].
        cbn zeta. destruct (_ || _); [|repeat split].
        match goal with |- context [checkEnd ?t] =>
          destruct (sameLedger_checkEnd t) as (_ & _ & _ & -> & _) end.
        repeat split. }
      destruct Hst as (T1 & T2 & T3). cbn zeta in IH.
      rewrite T1, T2, T3 in IH. exact IH.
    + specialize (IH (invalidate dl s) ws).
      pose proof (invalidate_config dl s) as Hcfg.
      rewrite (hasFilter_config _ _ Hcfg) in IH.
      destruct Hcfg as (_ & _ & _ & _ & _ & Hsd). rewrite Hsd in IH.
      assert (Hst :
        IndexScanStats.dupsTested (_specificStats (invalidate dl s))
        = IndexScanStats.dupsTested (_specificStats s)
        ∧ IndexScanStats.dupsDropped (_specificStats (invalidate dl s))
          = IndexScanStats.dupsDropped (_specificStats s)
        ∧ IndexScanStats.matchTested (_specificStats (invalidate dl s))
          = IndexScanStats.matchTested (_specificStats s)).
      { unfold invalidate. destruct (bool_decide _); repeat split. }
      destruct Hst as (T1 & T2 & T3). cbn zeta in IH.
      rewrite T1, T2, T3 in IH. exact IH.
Qed.

(** X8. The duplicate counters of a run: in a deduplicating scan [dupsTested]
    goes up by one for every step that gets past the EOF test (one that
    returns ADVANCED or NEED_TIME), and [dupsDropped] goes up by at most the
    number of NEED_TIME steps - by exactly that number when no filter is
    configured; in a scan that does not deduplicate neither counter moves. *)
Theorem dup_counters_count (calls : list Call) (s : IndexScan) (ws : WorkingSet) :
  let rs := (run calls s ws).1.1 in
  let ss := _specificStats s in
  let ss' := _specificStats (run calls s ws).1.2 in
  IndexScanStats.dupsTested ss'
  = (IndexScanStats.dupsTested ss
     + if _shouldDedup s then countRet ADVANCED rs + countRet NEED_TIME rs else 0)%N
  ∧ (IndexScanStats.dupsDropped ss ≤ IndexScanStats.dupsDropped ss')%N
  ∧ (IndexScanStats.dupsDropped ss'
     ≤ IndexScanStats.dupsDropped ss
       + if _shouldDedup s then countRet NEED_TIME rs else 0)%N
  ∧ (_filter s = None →
     IndexScanStats.dupsDropped ss'
     = (IndexScanStats.dupsDropped ss
        + if _shouldDedup s then countRet NEED_TIME rs else 0)%N).
Proof.
  destruct (specific_counters_run calls s ws) as (H1 & _ & H3 & H4 & H5).
  cbn zeta in *. split; [exact H1|]. split; [exact H3|]. split; [exact H4|].
  intros Hnf. apply H5. unfold hasFilter. rewrite Hnf. reflexivity.
Qed.

(** X9. [matchTested] counts the members that passed a configured filter,
    not the ones it rejected: over any run it goes up by the number of
    ADVANCED steps when a filter is configured, and it does not move when
    there is none. *)
Theorem matchTested_counts_passes (calls : list Call) (s : IndexScan) (ws : WorkingSet) :
  IndexScanStats.matchTested (_specificStats (run calls s ws).1.2)
  = (IndexScanStats.matchTested (_specificStats s)
     + match _filter s with
       | Some _ => countRet ADVANCED (run calls s ws).1.1
       | None => 0
       end)%N.
Proof.
  destruct (specific_counters_run calls s ws) as (_ & H2 & _).
  cbn zeta in H2. rewrite H2. unfold hasFilter. destruct (_filter s); reflexivity.
Qed.

(** *** The boundary flag *)

Lemma hitEnd_checkEnd (s : IndexScan) : _hitEnd s = true → _hitEnd (checkEnd s) = true.
Proof.
  intros Hh. unfold checkEnd.
  repeat match goal with
         | |- context [if ?b then _ else _] => destruct b
         | |- context [match ?o with Some _ => _ | None => _ end] => destruct o
         end; cbn; auto.
Qed.

Lemma indexCursor_checkEnd (s : IndexScan) : _indexCursor (checkEnd s) = _indexCursor s.
Proof. destruct (checkEnd_frame s) as (b & e & [-> | ->]); reflexivity. Qed.

Lemma hitEnd_positioned (s : IndexScan) :
  _hitEnd s = true → isEOF (positioned s) = true ∧ _hitEnd (positioned s) = true.
Proof.
  intros Hh.
  assert (Hp : _hitEnd (positioned s) = true).
  { unfold positioned, positionCursor. cbn.
    destruct (_indexCursor s); [destruct (_yieldMovedCursor s); [exact Hh|]|];
      apply hitEnd_checkEnd; exact Hh. }
  split; [|exact Hp].
  destruct (positionCursor_has_cursor (upd_commonStats CommonStats.inc_works s))
    as [c Hc].
  fold (positioned s) in Hc. rewrite (isEOF_Some _ _ Hc), Hp. apply orb_true_r.
Qed.

Lemma hitEnd_prepareToYield (s : IndexScan) : _hitEnd (prepareToYield s) = _hitEnd s.
Proof.
  unfold prepareToYield. destruct (_indexCursor _); [|reflexivity].
  destruct (isEOF _); reflexivity.
Qed.

Lemma hitEnd_recoverFromYield (s : IndexScan) :
  _hitEnd s = true → _hitEnd (recoverFromYield s) = true.
Proof.
  intros Hh. unfold recoverFromYield. destruct (_indexCursor _); [|exact Hh].
  destruct (isEOF _); [exact Hh|]. cbn zeta.
  destruct (_ || _); [|exact Hh]. apply hitEnd_checkEnd. exact Hh.
Qed.

Lemma hitEnd_invalidate (dl : DiskLoc) (s : IndexScan) :
  _hitEnd (invalidate dl s) = _hitEnd s.
Proof. unfold invalidate. destruct (bool_decide _); reflexivity. Qed.

Lemma run_at_hitEnd (calls : list Call) :
  ∀ (s : IndexScan) (ws : WorkingSet),
    isEOF s = true → _hitEnd s = true →
    Forall (λ r, ret r = IS_EOF ∧ isEOF (stage r) = true) (run calls s ws).1.1
    ∧ isEOF (run calls s ws).1.2 = true.
Proof.
  induction calls as [|call calls IH]; intros s ws Heof Hh.
  - cbn. split; [constructor | exact Heof].
  - destruct call; cbn [run].
    + destruct (hitEnd_positioned s Hh) as [Hpos Hp].
      rewrite (work_at_EOF _ ws Hpos). cbn [stage wset].
      specialize (IH (positioned s) ws Hpos Hp).
      destruct (run calls (positioned s) ws) as [[rs s'] ws']. cbn in *.
      destruct IH as [IH1 IH2]. split; [|exact IH2].
      constructor; [cbn; split; [reflexivity | exact Hpos] | exact IH1].
    + apply IH; [apply isEOF_prepareToYield, Heof|].
      rewrite hitEnd_prepareToYield. exact Hh.
    + apply IH; [apply isEOF_recoverFromYield, Heof | apply hitEnd_recoverFromYield, Hh].
    + apply IH; [rewrite isEOF_invalidate; exact Heof|].
      rewrite hitEnd_invalidate. exact Hh.
Qed.


(** X10. The boundary flag is never taken back: once [_hitEnd] is set, it
    stays set through every later call, every later step returns IS_EOF with
    nothing written to [out], and the working set is left as it was - whatever
    the cursor does when it is advanced again. *)
Theorem boundary_hit_is_final (calls : list Call) (s : IndexScan) (ws : WorkingSet) :
  _hitEnd s = true →
  _hitEnd (run calls s ws).1.2 = true
  ∧ Forall (λ r, ret r = IS_EOF ∧ out r = None) (run calls s ws).1.1
  ∧ (run calls s ws).2 = ws.
Proof.
  revert s. induction calls as [|call calls IH]; intros s Hh.
  - cbn. auto.
  - destruct call; cbn [run].
    + destruct (hitEnd_positioned s Hh) as [Heof Hp].
      rewrite (work_at_EOF s ws Heof). cbn [stage wset].
      specialize (IH (positioned s) Hp).
      destruct (run calls (positioned s) ws) as [[rs s'] ws']. cbn in *.
      destruct IH as (I1 & I2 & I3). split; [exact I1|]. split; [|exact I3].
      constructor; [cbn; auto | exact I2].
    + apply IH. rewrite hitEnd_prepareToYield. exact Hh.
    + apply IH, hitEnd_recoverFromYield, Hh.
    + apply IH. rewrite hitEnd_invalidate. exact Hh.
Qed.

(** X11. With a direction other than 1 and -1 the boundary check has no
    side of the end key that counts as "before": on a stage that is not at EOF
    and has a non-empty end key, [checkEnd] sets the flag for every key that
    differs from the end key, and for the end key itself unless the bound is
    inclusive. *)
Theorem checkEnd_other_direction (s : IndexScan) (c : IndexCursor) :
  _indexCursor s = Some c →
  isEOF s = false →
  isEmpty (_endKey s) = false →
  _direction s ≠ 1 → _direction s ≠ -1 →
  (_hitEnd (checkEnd s) = true
   ↔ woCompare (_endKey s) (getKey c) (keyPattern (_descriptor s)) ≠ 0
     ∨ _endKeyInclusive s = false).
Proof.
  intros Hc Heof Hne Hd1 Hd2.
  assert (Hlow : _hitEnd s = false).
  { rewrite (isEOF_Some _ _ Hc) in Heof. apply orb_false_iff in Heof. tauto. }
  rewrite (checkEnd_live _ _ Hc Heof), (pastEnd_decided _ _ Hne). cbn zeta.
  set (w := woCompare _ _ _).
  assert (Hsgn : Z.sgn w = 0 ↔ w = 0) by apply Z.sgn_null_iff.
  assert (Hrange : Z.sgn w = -1 ∨ Z.sgn w = 0 ∨ Z.sgn w = 1) by lia.
  destruct (bool_decide _) eqn:Hb; cbn.
  - apply bool_decide_eq_true in Hb. split; [intros _|reflexivity].
    destruct Hb as [[Hn _]|[_ Hi]]; [left; tauto | right; exact Hi].
  - apply bool_decide_eq_false in Hb. rewrite Hlow. split; [discriminate|].
    intros Hor. exfalso. apply Hb.
    destruct (decide (Z.sgn w = 0)) as [H0|H0].
    + right. split; [exact H0|]. destruct Hor as [Hw|Hi]; [tauto | exact Hi].
    + left. split; [exact H0 | lia].
Qed.

(** *** Invalidation and yields, once more *)

(** X12. [invalidate] forgets exactly the location it is given and counts
    it as seen only if it was recorded: afterwards the location is not in the
    deduplication set, every other location is in the set exactly if it was
    before, [seenInvalidated] has gone up by one if the location was recorded
    and not at all otherwise, and invalidating the same location a second time
    changes nothing but the [invalidates] counter.  The cursor, the boundary
    flag, the moved-cursor flag and the saved position are not touched. *)
Theorem invalidate_forgets_one (dl : DiskLoc) (s : IndexScan) :
  (dl ∉ _returned (invalidate dl s))
  ∧ (∀ l, l ≠ dl → (l ∈ _returned (invalidate dl s) ↔ l ∈ _returned s))
  ∧ IndexScanStats.seenInvalidated (_specificStats (invalidate dl s))
    = (IndexScanStats.seenInvalidated (_specificStats s)
       + oneIf (bool_decide (dl ∈ _returned s)))%N
  ∧ invalidate dl (invalidate dl s)
    = upd_commonStats CommonStats.inc_invalidates (invalidate dl s)
  ∧ _indexCursor (invalidate dl s) = _indexCursor s
  ∧ _hitEnd (invalidate dl s) = _hitEnd s
  ∧ _yieldMovedCursor (invalidate dl s) = _yieldMovedCursor s
  ∧ _savedKey (invalidate dl s) = _savedKey s
  ∧ _savedLoc (invalidate dl s) = _savedLoc s.
Proof.
  assert (Hgone : dl ∉ _returned (invalidate dl s)).
  { rewrite returned_invalidate. intros [_ Hx]%elem_of_difference.
    apply Hx, elem_of_singleton. reflexivity. }
  split; [exact Hgone|]. split.
  { intros l Hl. rewrite returned_invalidate, elem_of_difference, elem_of_singleton.
    tauto. }
  split.
  { unfold invalidate. cbn. destruct (bool_decide _); cbn; lia. }
  split.
  { unfold invalidate at 1.
    rewrite (bool_decide_eq_false_2 _ Hgone). reflexivity. }
  unfold invalidate. destruct (bool_decide _); repeat split.
Qed.

(** X13. A yield and a recovery that find the cursor where it was: for a
    stage standing on an entry, if saving leaves the cursor on an entry and the
    restored cursor shows a byte-identical key and the same location, then
    [recoverFromYield] after [prepareToYield] changes the stage only in its
    cursor (now the restored one), the saved position (the entry's key and
    location) and the two yield counters; the moved-cursor flag, the boundary
    flag and the moved-cursor count stay as they were, so the next step
    advances as usual. *)
Theorem resume_without_movement (s : IndexScan) (c : IndexCursor) :
  _indexCursor s = Some c →
  isEOF s = false →
  cursor_isEOF (savePosition c) = false →
  binaryEqual (getKey c) (getKey (restorePosition (savePosition c))) = true →
  getValue (restorePosition (savePosition c)) = getValue c →
  recoverFromYield (prepareToYield s)
  = set_indexCursor (Some (restorePosition (savePosition c)))
      (set_saved (getKey c) (getValue c)
         (upd_commonStats (λ cs, CommonStats.inc_unyields (CommonStats.inc_yields cs))
            s)).
Proof.
  intros Hc Heof Hsave Hkey Hloc.
  assert (Hlow : _hitEnd s = false).
  { rewrite (isEOF_Some _ _ Hc) in Heof. apply orb_false_iff in Heof. tauto. }
  unfold prepareToYield. cbn. rewrite Hc, isEOF_upd_commonStats, Heof.
  unfold recoverFromYield. cbn.
  unfold isEOF. cbn. rewrite Hsave, Hlow. cbn.
  rewrite Hkey, Hloc. rewrite bool_decide_eq_true_2 by reflexivity. cbn.
  destruct s; reflexivity.
Qed.

(** X14. A stage is never at EOF before its first step, even over an empty
    index: from construction on, as long as only yields, recoveries and
    invalidations are called, there is no cursor, [isEOF] is false, no position
    is saved, the deduplication set is empty and the flags are clear. *)
Theorem not_EOF_before_first_work (params : IndexScanParams)
  (filter : option MatchExpression) (s : IndexScan) (calls : list Call) (ws : WorkingSet) :
  IndexScan_new params filter = Built s →
  Forall (λ call, isWork call = false) calls →
  let s' := (run calls s ws).1.2 in
  isEOF s' = false
  ∧ _indexCursor s' = None
  ∧ _savedKey s' = BSONObj_new ∧ _savedLoc s' = DiskLoc_Null
  ∧ _returned s' = ∅
  ∧ _hitEnd s' = false ∧ _yieldMovedCursor s' = false
  ∧ IndexScanStats.seenInvalidated (_specificStats s') = 0%N.
Proof.
  intros Hnew Hnw.
  assert (Hinit : _indexCursor s = None ∧ _savedKey s = BSONObj_new
                  ∧ _savedLoc s = DiskLoc_Null ∧ _returned s = ∅
                  ∧ _hitEnd s = false ∧ _yieldMovedCursor s = false
                  ∧ IndexScanStats.seenInvalidated (_specificStats s) = 0%N).
  { unfold IndexScan_new in Hnew.
    destruct (forceBtreeAccessMethod params); cbn in Hnew;
      repeat match type of Hnew with context [if ?b then _ else _] => destruct b end;
      (injection Hnew as <- || discriminate); repeat split. }
  clear Hnew. cbn zeta. revert s Hinit.
  induction Hnw as [|call calls Hcall _ IH]; intros s Hinit.
  - cbn. destruct Hinit as (Hc & ? & ? & ? & ? & ? & ?).
    unfold isEOF. rewrite Hc. auto 10.
  - destruct Hinit as (Hc & Hk & Hl & Hr & Hh & Hm & Hsi).
    destruct call; [discriminate| | |]; cbn [run]; apply IH.
    + unfold prepareToYield. cbn. rewrite Hc. cbn. auto 10.
    + unfold recoverFromYield. cbn. rewrite Hc. cbn. auto 10.
    + unfold invalidate. cbn. rewrite Hr.
      rewrite bool_decide_eq_false_2 by apply not_elem_of_empty. cbn. auto 10.
Qed.

(** X15. A scan that does not deduplicate keeps no ledger: if the
    deduplication set is empty, as it is at construction, it is still empty
    after any sequence of calls, and [seenInvalidated] has not moved. *)
Theorem no_ledger_without_dedup (calls : list Call) (s : IndexScan) (ws : WorkingSet) :
  _shouldDedup s = false →
  _returned s = ∅ →
  _returned (run calls s ws).1.2 = ∅
  ∧ IndexScanStats.seenInvalidated (_specificStats (run calls s ws).1.2)
    = IndexScanStats.seenInvalidated (_specificStats s).
Proof.
  revert s ws. induction calls as [|call calls IH]; intros s ws Hd Hr; [cbn; auto|].
  destruct call; cbn [run].
  - specialize (IH (stage (work s ws)) (wset (work s ws))).
    pose proof (returned_work s ws) as Hrw. rewrite Hd in Hrw.
    assert (Hrw' : _returned (stage (work s ws)) = ∅)
      by (rewrite Hrw; destruct (examined s); exact Hr).
    pose proof (shouldDedup_work s ws) as Hd'. rewrite Hd in Hd'.
    assert (Hsi : IndexScanStats.seenInvalidated (_specificStats (stage (work s ws)))
                  = IndexScanStats.seenInvalidated (_specificStats s)).
    { destruct (sameLedger_positioned s) as (_ & _ & _ & Hst & _).
      unfold work. fold (positioned s). rewrite <- Hst.
      set (p := positioned s).
      destruct (isEOF p); [reflexivity|].
      destruct (_indexCursor p); [|reflexivity].
      unfold dedup.
      destruct (_shouldDedup p); [destruct (bool_decide _)|];
        rewrite ?materialize_member; cbn zeta;
        try (destruct (Filter_passes _ _); [destruct (_filter _)|]);
        reflexivity. }
    destruct (run calls (stage (work s ws)) (wset (work s ws))) as [[rs s'] ws'].
    cbn [fst snd] in *. rewrite <- Hsi. apply IH; assumption.
  - assert (Hsi : _specificStats (prepareToYield s) = _specificStats s).
    { unfold prepareToYield. destruct (_indexCursor _); [|reflexivity].
      destruct (isEOF _); reflexivity. }
    rewrite <- Hsi. apply IH.
    + rewrite shouldDedup_prepareToYield. exact Hd.
    + rewrite returned_prepareToYield. exact Hr.
  - destruct (recoverFromYield_ledger s) as (Hr' & Hs' & _).
    assert (Hsi : IndexScanStats.seenInvalidated (_specificStats (recoverFromYield s))
                  = IndexScanStats.seenInvalidated (_specificStats s)).
    { unfold recoverFromYield. destruct (_indexCursor _); [|reflexivity].
      destruct (isEOF _); [reflexivity|]. cbn zeta.
      destruct (_ || _); [|reflexivity].
      match goal with |- context [checkEnd ?t] =>
        destruct (sameLedger_checkEnd t) as (_ & _ & _ & -> & _) end.
      reflexivity. }
    rewrite <- Hsi. apply IH; congruence.
  - assert (Hinv : invalidate dl s = upd_commonStats CommonStats.inc_invalidates s).
    { unfold invalidate. cbn. rewrite Hr.
      rewrite bool_decide_eq_false_2 by apply not_elem_of_empty. reflexivity. }
    rewrite Hinv. apply (IH (upd_commonStats CommonStats.inc_invalidates s) ws Hd Hr).
Qed.

(** *** The statistics do not steer the scan *)

Lemma checkEnd_withStats (cs : CommonStats.t) (ss : IndexScanStats.t) (s : IndexScan) :
  ∃ cs', checkEnd (withStats cs ss s) = withStats cs' ss (checkEnd s).
Proof.
  unfold checkEnd. change (isEOF (withStats cs ss s)) with (isEOF s).
  change (_endKey (withStats cs ss s)) with (_endKey s).
  change (_indexCursor (withStats cs ss s)) with (_indexCursor s).
  destruct (isEOF s); [eexists; reflexivity|].
  destruct (isEmpty (_endKey s)); [eexists; reflexivity|].
  destruct (_indexCursor s) as [c|]; [|eexists; reflexivity].
  cbn. destruct (_ || _); eexists; reflexivity.
Qed.

Lemma positioned_withStats (cs : CommonStats.t) (ss : IndexScanStats.t) (s : IndexScan) :
  ∃ cs', positioned (withStats cs ss s) = withStats cs' ss (positioned s).
Proof.
  unfold positioned, positionCursor.
  change (_indexCursor (upd_commonStats CommonStats.inc_works (withStats cs ss s)))
    with (_indexCursor s).
  change (_indexCursor (upd_commonStats CommonStats.inc_works s)) with (_indexCursor s).
  destruct (_indexCursor s) as [c|].
  - change (_yieldMovedCursor (upd_commonStats CommonStats.inc_works (withStats cs ss s)))
      with (_yieldMovedCursor s).
    change (_yieldMovedCursor (upd_commonStats CommonStats.inc_works s))
      with (_yieldMovedCursor s).
    destruct (_yieldMovedCursor s); [eexists; reflexivity|].
    destruct (checkEnd_withStats (CommonStats.inc_works cs) ss
                (set_indexCursor (Some (next c))
                   (upd_commonStats CommonStats.inc_works s))) as [cs' Hce].
    exists cs'. exact Hce.
  - destruct (checkEnd_withStats (CommonStats.inc_works cs) ss
                (set_indexCursor (Some (initCursor s))
                   (upd_commonStats CommonStats.inc_works s))) as [cs' Hce].
    exists cs'. exact Hce.
Qed.

Lemma dedup_withStats (cs : CommonStats.t) (ss : IndexScanStats.t) (c : IndexCursor)
  (s : IndexScan) (ws : WorkingSet) :
  ∃ cs' ss',
    dedup c (withStats cs ss s) ws
    = {| ret := ret (dedup c s ws); out := out (dedup c s ws);
         stage := withStats cs' ss' (stage (dedup c s ws));
         wset := wset (dedup c s ws) |}.
Proof.
  unfold dedup.
  change (_shouldDedup (withStats cs ss s)) with (_shouldDedup s).
  destruct (_shouldDedup s).
  - change (_returned (upd_specificStats IndexScanStats.inc_dupsTested
                         (withStats cs ss s))) with (_returned s).
    change (_returned (upd_specificStats IndexScanStats.inc_dupsTested s))
      with (_returned s).
    destruct (bool_decide _); [do 2 eexists; reflexivity|].
    rewrite !materialize_member. cbn zeta.
    unfold candidate. cbn [_descriptor _filter set_returned upd_specificStats withStats
                             upd_commonStats].
    destruct (Filter_passes _ _); [destruct (_filter s)|]; do 2 eexists; reflexivity.
  - rewrite !materialize_member. cbn zeta.
    unfold candidate. cbn [_descriptor _filter set_returned upd_specificStats withStats
                             upd_commonStats].
    destruct (Filter_passes _ _); [destruct (_filter s)|]; do 2 eexists; reflexivity.
Qed.

Lemma work_withStats (cs : CommonStats.t) (ss : IndexScanStats.t) (s : IndexScan)
  (ws : WorkingSet) :
  ∃ cs' ss',
    work (withStats cs ss s) ws
    = {| ret := ret (work s ws); out := out (work s ws);
         stage := withStats cs' ss' (stage (work s ws));
         wset := wset (work s ws) |}.
Proof.
  unfold work. fold (positioned (withStats cs ss s)). fold (positioned s).
  destruct (positioned_withStats cs ss s) as [cs1 ->].
  change (isEOF (withStats cs1 ss (positioned s))) with (isEOF (positioned s)).
  change (_indexCursor (withStats cs1 ss (positioned s)))
    with (_indexCursor (positioned s)).
  destruct (isEOF (positioned s)); [do 2 eexists; reflexivity|].
  destruct (_indexCursor (positioned s)) as [c|]; [|do 2 eexists; reflexivity].
  apply dedup_withStats.
Qed.

Lemma yields_withStats (cs : CommonStats.t) (ss : IndexScanStats.t) (s : IndexScan) :
  (∃ cs' ss', prepareToYield (withStats cs ss s) = withStats cs' ss' (prepareToYield s))
  ∧ (∃ cs' ss',
       recoverFromYield (withStats cs ss s) = withStats cs' ss' (recoverFromYield s)).
Proof.
  split.
  - unfold prepareToYield.
    change (_indexCursor (upd_commonStats CommonStats.inc_yields (withStats cs ss s)))
      with (_indexCursor s).
    change (_indexCursor (upd_commonStats CommonStats.inc_yields s))
      with (_indexCursor s).
    destruct (_indexCursor s) as [c|]; [|do 2 eexists; reflexivity].
    change (isEOF (upd_commonStats CommonStats.inc_yields (withStats cs ss s)))
      with (isEOF s).
    change (isEOF (upd_commonStats CommonStats.inc_yields s)) with (isEOF s).
    destruct (isEOF s); do 2 eexists; reflexivity.
  - unfold recoverFromYield.
    change (_indexCursor (upd_commonStats CommonStats.inc_unyields (withStats cs ss s)))
      with (_indexCursor s).
    change (_indexCursor (upd_commonStats CommonStats.inc_unyields s))
      with (_indexCursor s).
    destruct (_indexCursor s) as [c|]; [|do 2 eexists; reflexivity].
    change (isEOF (upd_commonStats CommonStats.inc_unyields (withStats cs ss s)))
      with (isEOF s).
    change (isEOF (upd_commonStats CommonStats.inc_unyields s)) with (isEOF s).
    destruct (isEOF s); [do 2 eexists; reflexivity|].
    cbn zeta. cbn [_savedKey _savedLoc set_indexCursor upd_commonStats withStats
                     upd_specificStats].
    destruct (_ || _); [|do 2 eexists; reflexivity].
    match goal with |- ∃ _ _, checkEnd ?t = _ =>
      destruct (checkEnd_withStats (CommonStats.inc_unyields cs)
                  (IndexScanStats.inc_yieldMovedCursor ss)
                  (upd_specificStats IndexScanStats.inc_yieldMovedCursor
                     (set_yieldMovedCursor true
                        (set_indexCursor (Some (restorePosition c))
                           (upd_commonStats CommonStats.inc_unyields s)))))
        as [cs' Hce] end.
    exists cs'. eexists. etransitivity; [|etransitivity; [exact Hce|]].
    + reflexivity.
    + match goal with |- withStats _ _ (checkEnd ?t) = _ =>
        destruct (checkEnd_frame t) as (b & e & [-> | ->]) end; reflexivity.
Qed.

Lemma invalidate_withStats (cs : CommonStats.t) (ss : IndexScanStats.t) (dl : DiskLoc)
  (s : IndexScan) :
  ∃ cs' ss', invalidate dl (withStats cs ss s) = withStats cs' ss' (invalidate dl s).
Proof.
  unfold invalidate.
  change (_returned (upd_commonStats CommonStats.inc_invalidates (withStats cs ss s)))
    with (_returned s).
  change (_returned (upd_commonStats CommonStats.inc_invalidates s)) with (_returned s).
  destruct (bool_decide _); do 2 eexists; reflexivity.
Qed.

Lemma run_withStats (calls : list Call) :
  ∀ (cs : CommonStats.t) (ss : IndexScanStats.t) (s : IndexScan) (ws : WorkingSet),
    map (λ r, (ret r, out r)) (run calls (withStats cs ss s) ws).1.1
    = map (λ r, (ret r, out r)) (run calls s ws).1.1
    ∧ (run calls (withStats cs ss s) ws).2 = (run calls s ws).2
    ∧ ∃ cs' ss', (run calls (withStats cs ss s) ws).1.2
                 = withStats cs' ss' (run calls s ws).1.2.
Proof.
  induction calls as [|call calls IH]; intros cs ss s ws.
  - cbn. split; [reflexivity|]. split; [reflexivity|]. eauto.
  - destruct call; cbn [run].
    + destruct (work_withStats cs ss s ws) as (cs1 & ss1 & ->). cbn [stage wset].
      specialize (IH cs1 ss1 (stage (work s ws)) (wset (work s ws))).
      destruct (run calls (withStats cs1 ss1 (stage (work s ws))) (wset (work s ws)))
        as [[rs1 s1] ws1].
      destruct (run calls (stage (work s ws)) (wset (work s ws))) as [[rs s'] ws'].
      cbn [fst snd map] in *. destruct IH as (I1 & I2 & I3).
      rewrite I1. auto.
    + destruct (yields_withStats cs ss s) as [(cs1 & ss1 & ->) _]. apply IH.
    + destruct (yields_withStats cs ss s) as [_ (cs1 & ss1 & ->)]. apply IH.
    + destruct (invalidate_withStats cs ss dl s) as (cs1 & ss1 & ->). apply IH.
Qed.

(** X16. The statistics are written but never read back: two stages that
    differ only in their counters behave alike.  Over any sequence of calls
    their steps return the same values with the same handles, they leave the
    same working set, and they end as stages that again differ only in their
    counters.  In particular taking a statistics snapshot with [getStats],
    which refreshes the EOF statistic, changes nothing about the scan that
    follows. *)
Theorem statistics_do_not_steer (calls : list Call) (cs : CommonStats.t)
  (ss : IndexScanStats.t) (s : IndexScan) (ws : WorkingSet) :
  (map (λ r, (ret r, out r)) (run calls (withStats cs ss s) ws).1.1
   = map (λ r, (ret r, out r)) (run calls s ws).1.1
   ∧ (run calls (withStats cs ss s) ws).2 = (run calls s ws).2
   ∧ ∃ cs' ss', (run calls (withStats cs ss s) ws).1.2
                = withStats cs' ss' (run calls s ws).1.2)
  ∧ (map (λ r, (ret r, out r)) (run calls (getStats s).1 ws).1.1
     = map (λ r, (ret r, out r)) (run calls s ws).1.1
     ∧ (run calls (getStats s).1 ws).2 = (run calls s ws).2
     ∧ CommonStats.isEOF (getStats s).2.1 = isEOF s).
Proof.
  split; [apply run_withStats|].
  destruct (run_withStats calls (CommonStats.set_isEOF (isEOF s) (_commonStats s))
              (_specificStats s) s ws) as (H1 & H2 & _).
  split; [exact H1|]. split; [exact H2 | reflexivity].
Qed.

(** *** Construction and the working set *)

(** X17. Constructing a stage fails in one case only: the btree access
    method is not forced, the key pattern names the 2d or the 2dsphere access
    method, and the end key is not empty.  In every other case the stage is
    built, with the members the initialisers give it and the access method
    the catalog returns (the btree one when forced). *)
Theorem construction_fails_iff (params : IndexScanParams) (filter : option MatchExpression) :
  (IndexScan_new params filter = VerifyFailed
   ↔ forceBtreeAccessMethod params = false
     ∧ (getAccessMethodName (keyPattern (descriptor params)) = GEO_2D
        ∨ getAccessMethodName (keyPattern (descriptor params)) = GEO_2DSPHERE)
     ∧ isEmpty (endKey params) = false)
  ∧ (IndexScan_new params filter ≠ VerifyFailed →
     IndexScan_new params filter
     = Built (IndexScan_init params filter
                (if forceBtreeAccessMethod params
                 then getBtreeIndex (descriptor params)
                 else getIndex (descriptor params)))).
Proof.
  unfold IndexScan_new.
  destruct (forceBtreeAccessMethod params); cbn.
  - split; [|reflexivity]. split; [discriminate | intros [? _]; discriminate].
  - set (nm := getAccessMethodName _).
    destruct (decide (GEO_2D = nm)) as [H2d|H2d];
      [rewrite (bool_decide_eq_true_2 _ H2d)
      |rewrite (bool_decide_eq_false_2 _ H2d);
       destruct (decide (GEO_2DSPHERE = nm)) as [H2s|H2s];
       [rewrite (bool_decide_eq_true_2 _ H2s)|rewrite (bool_decide_eq_false_2 _ H2s)]];
      cbn [orb].
    + destruct (isEmpty (endKey params)); split;
        try (split; [discriminate | intros (_ & _ & ?); discriminate]);
        try reflexivity; try congruence.
      split; [auto | reflexivity].
    + destruct (isEmpty (endKey params)); split;
        try (split; [discriminate | intros (_ & _ & ?); discriminate]);
        try reflexivity; try congruence.
      split; [auto | reflexivity].
    + split; [|reflexivity].
      split; [discriminate | intros (_ & [?|?] & _); congruence].
Qed.


End Properties.


(** ** The properties at work on concrete scans *)
Section OnDistinct.
#[local] Existing Instance Scenarios.distinct.
Import ListIndex Scenarios.

Lemma exhaustion_stable_list (es : list Entry) : @exhaustionIsStable (collaborators es).
Proof.
  intros c. cbn. unfold lnext. destruct (remaining c); [reflexivity | discriminate].
Qed.

Lemma checkEnd_boundary_witness :
  _hitEnd (checkEnd exclusiveStarted) = false
  ∧ _hitEnd (checkEnd exclusiveStarted)
    = hasHitBoundary (key 1) (key 3) 1 false ascending.
Proof.
  destruct (checkEnd_boundary exclusiveStarted
              (lseek (key 1) (newCursor (_iam exclusiveStage))))
    as (_ & Hne & Hspec).
  - reflexivity.
  - vm_compute. reflexivity.
  - left. reflexivity.
  - split; [|exact Hspec].
    apply Hne; [reflexivity | vm_compute; reflexivity].
Defined.


Lemma exclusive_end_scan_witness :
  map observe (run [Work; Work; Work] exclusiveStage emptyWorkingSet).1.1
  = [(ADVANCED, Some locA); (ADVANCED, Some locB); (IS_EOF, None)].
Proof.
  apply (exclusive_end_scan exclusiveParams exclusiveStage emptyWorkingSet
           (key 1) (key 2) (key 3) locA locB locC).
  - reflexivity.
  - reflexivity.
  - reflexivity.
  - reflexivity.
  - reflexivity.
  - vm_compute. repeat split.
  - vm_compute. reflexivity.
  - vm_compute. reflexivity.
  - vm_compute. reflexivity.
Defined.

Lemma recover_moved_cursor_witness :
  _yieldMovedCursor (recoverFromYield yieldedStage) = true
  ∧ getValue <$> _indexCursor (recoverFromYield yieldedStage) = Some locB
  ∧ _hitEnd (recoverFromYield yieldedStage) = false
  ∧ observe (work (recoverFromYield yieldedStage) emptyWorkingSet)
    = (ADVANCED, Some locB).
Proof.
  destruct (recover_moved_cursor yieldedStage yieldedCursor emptyWorkingSet)
    as (Hc & Hm & _ & Hh & _ & _ & _ & Hr).
  - reflexivity.
  - vm_compute. reflexivity.
  - left. vm_compute. reflexivity.
  - split; [exact Hm|].
    split; [rewrite Hc; vm_compute; reflexivity|].
    split; [rewrite Hh; vm_compute; reflexivity|].
    match type of Hr with
    | if ?b then _ else _ => replace b with false in Hr by (vm_compute; reflexivity)
    end.
    rewrite Hr. vm_compute. reflexivity.
Defined.

Lemma yield_only_counts_witness :
  prepareToYield exclusiveStage
  = upd_commonStats CommonStats.inc_yields exclusiveStage
  ∧ recoverFromYield exclusiveStage
    = upd_commonStats CommonStats.inc_unyields exclusiveStage.
Proof. apply (yield_only_counts exclusiveStage). right. reflexivity. Defined.

(** C8 as stated fails: with no cursor constructed yet, and also at EOF, a
    yield and a recovery each change the stage - the call is counted. *)
Lemma yield_changes_counters :
  _indexCursor exclusiveStage = None
  ∧ prepareToYield exclusiveStage ≠ exclusiveStage
  ∧ recoverFromYield exclusiveStage ≠ exclusiveStage
  ∧ isEOF (stage (work exclusiveLate exclusiveLateSet)) = true
  ∧ prepareToYield (stage (work exclusiveLate exclusiveLateSet))
    ≠ stage (work exclusiveLate exclusiveLateSet)
  ∧ recoverFromYield (stage (work exclusiveLate exclusiveLateSet))
    ≠ stage (work exclusiveLate exclusiveLateSet).
Proof.
  split; [reflexivity|].
  split; [intros Heq; apply (f_equal (λ s, CommonStats.yields (_commonStats s))) in Heq;
          vm_compute in Heq; discriminate|].
  split; [intros Heq; apply (f_equal (λ s, CommonStats.unyields (_commonStats s))) in Heq;
          vm_compute in Heq; discriminate|].
  split; [vm_compute; reflexivity|].
  split; intros Heq.
  - apply (f_equal (λ s, CommonStats.yields (_commonStats s))) in Heq.
    vm_compute in Heq. discriminate.
  - apply (f_equal (λ s, CommonStats.unyields (_commonStats s))) in Heq.
    vm_compute in Heq. discriminate.
Qed.

Lemma geo_endKey_verified_witness :
  IndexScan_new (geoParams false (key 3)) None = VerifyFailed
  ∧ (∃ s, IndexScan_new (geoParams false []) None = Built s).
Proof.
  split.
  - destruct (geo_endKey_verified (geoParams false (key 3)) None) as [Hunforced _].
    + left. reflexivity.
    + exact (Hunforced eq_refl).
  - destruct (geo_endKey_verified (geoParams false []) None) as [Hunforced _].
    + left. reflexivity.
    + exact (Hunforced eq_refl).
Defined.

(** C10 as stated fails: a 2d index with a non-empty end key is accepted
    when the btree access method is forced. *)
Lemma forced_btree_accepts_endKey :
  getAccessMethodName (keyPattern (descriptor (geoParams true (key 3)))) = GEO_2D
  ∧ isEmpty (endKey (geoParams true (key 3))) = false
  ∧ IndexScan_new (geoParams true (key 3)) None
    = Built (IndexScan_init (geoParams true (key 3)) None
               (getBtreeIndex (descriptor (geoParams true (key 3))))).
Proof. split; [reflexivity|]. split; reflexivity. Qed.


Lemma advanced_member_passes_filter_witness :
  ∃ (id : WorkingSetID) (c : IndexCursor) (m : WorkingSetMember),
    out (work exclusiveStage emptyWorkingSet) = Some id
    ∧ _indexCursor (stage (work exclusiveStage emptyWorkingSet)) = Some c
    ∧ _data (wset (work exclusiveStage emptyWorkingSet)) !! id = Some m
    ∧ loc m = getValue c
    ∧ member_keyData m
      = [{| indexKeyPattern := keyPattern (_descriptor exclusiveStage);
            keyData := getKey c |}]
    ∧ state m = LOC_AND_IDX
    ∧ Filter_passes m (_filter exclusiveStage) = true.
Proof.
  apply (advanced_member_passes_filter exclusiveStage emptyWorkingSet).
  vm_compute. reflexivity.
Defined.

Lemma work_touches_only_its_handle_witness :
  _data (wset (work exclusiveStarted (wset (work exclusiveStage emptyWorkingSet))))
    !! 0%N
  = _data (wset (work exclusiveStage emptyWorkingSet)) !! 0%N.
Proof.
  apply (work_touches_only_its_handle exclusiveStarted
           (wset (work exclusiveStage emptyWorkingSet)) 0%N).
  vm_compute. discriminate.
Defined.

Lemma boundary_hit_is_final_witness :
  _hitEnd (run [Work; PrepareToYield; Work]
             (stage (work exclusiveLate exclusiveLateSet)) exclusiveLateSet).1.2 = true
  ∧ Forall (λ r, ret r = IS_EOF ∧ out r = None)
      (run [Work; PrepareToYield; Work]
         (stage (work exclusiveLate exclusiveLateSet)) exclusiveLateSet).1.1
  ∧ (run [Work; PrepareToYield; Work]
       (stage (work exclusiveLate exclusiveLateSet)) exclusiveLateSet).2
    = exclusiveLateSet.
Proof.
  apply (boundary_hit_is_final [Work; PrepareToYield; Work]
           (stage (work exclusiveLate exclusiveLateSet)) exclusiveLateSet).
  vm_compute. reflexivity.
Defined.

Lemma checkEnd_other_direction_witness :
  _hitEnd (checkEnd oddDirectionStage) = true.
Proof.
  apply (checkEnd_other_direction oddDirectionStage oddDirectionCursor).
  - reflexivity.
  - vm_compute. reflexivity.
  - reflexivity.
  - discriminate.
  - discriminate.
  - left. vm_compute. discriminate.
Defined.

Lemma resume_without_movement_witness :
  recoverFromYield (prepareToYield exclusiveStarted)
  = set_indexCursor (Some (restorePosition (savePosition exclusiveFirst)))
      (set_saved (getKey exclusiveFirst) (getValue exclusiveFirst)
         (upd_commonStats (λ cs, CommonStats.inc_unyields (CommonStats.inc_yields cs))
            exclusiveStarted)).
Proof.
  apply (resume_without_movement exclusiveStarted exclusiveFirst).
  - reflexivity.
  - vm_compute. reflexivity.
  - vm_compute. reflexivity.
  - vm_compute. reflexivity.
  - vm_compute. reflexivity.
Defined.

Lemma not_EOF_before_first_work_witness :
  isEOF (run [PrepareToYield; Invalidate locA; RecoverFromYield]
           exclusiveStage emptyWorkingSet).1.2 = false.
Proof.
  destruct (not_EOF_before_first_work exclusiveParams None exclusiveStage
              [PrepareToYield; Invalidate locA; RecoverFromYield] emptyWorkingSet)
    as [Heof _].
  - reflexivity.
  - repeat constructor.
  - exact Heof.
Defined.

Lemma no_ledger_without_dedup_witness :
  _returned (run [Work; Invalidate locA; Work] exclusiveStage emptyWorkingSet).1.2 = ∅
  ∧ IndexScanStats.seenInvalidated
      (_specificStats (run [Work; Invalidate locA; Work] exclusiveStage
                         emptyWorkingSet).1.2)
    = IndexScanStats.seenInvalidated (_specificStats exclusiveStage).
Proof.
  apply (no_ledger_without_dedup [Work; Invalidate locA; Work] exclusiveStage
           emptyWorkingSet); reflexivity.
Defined.



End OnDistinct.

Section OnMultikey.
#[local] Existing Instance Scenarios.multikey.
Import ListIndex Scenarios.

Lemma multikey_dedup_scan_witness :
  map observe (run [Work; Work; Work; Work] (multikeyStage None) emptyWorkingSet).1.1
  = [(ADVANCED, Some locA); (NEED_TIME, None); (ADVANCED, Some locB); (IS_EOF, None)]
  ∧ _returned (run [Work; Work; Work; Work] (multikeyStage None) emptyWorkingSet).1.2
    = {[locA; locB]}.
Proof.
  apply (multikey_dedup_scan multikeyParams (multikeyStage None) emptyWorkingSet
           (key 1) (key 2) (key 3) locA locB).
  - reflexivity.
  - reflexivity.
  - vm_compute. repeat split.
  - reflexivity.
  - reflexivity.
  - reflexivity.
  - discriminate.
Defined.

Lemma work_frees_unless_advanced_witness :
  ret (work (multikeyStage (Some rejectAll)) emptyWorkingSet) = NEED_TIME
  ∧ out (work (multikeyStage (Some rejectAll)) emptyWorkingSet) = None
  ∧ _data (wset (work (multikeyStage (Some rejectAll)) emptyWorkingSet))
    = _data emptyWorkingSet.
Proof.
  assert (Hret : ret (work (multikeyStage (Some rejectAll)) emptyWorkingSet) = NEED_TIME)
    by (vm_compute; reflexivity).
  split; [exact Hret|].
  destruct (work_frees_unless_advanced (multikeyStage (Some rejectAll)) emptyWorkingSet)
    as (Ho & Hd & _).
  - reflexivity.
  - rewrite Hret. discriminate.
  - split; [exact Ho | exact Hd].
Defined.

(** C4 as stated fails: the filter rejects the first entry, the step returns
    NEED_TIME and hands nothing out, and yet the entry's location is in the
    deduplication set afterwards. *)
Lemma rejected_location_is_recorded :
  _returned (multikeyStage (Some rejectAll)) = ∅
  ∧ examined (multikeyStage (Some rejectAll)) = Some locA
  ∧ ret (work (multikeyStage (Some rejectAll)) emptyWorkingSet) = NEED_TIME
  ∧ out (work (multikeyStage (Some rejectAll)) emptyWorkingSet) = None
  ∧ locA ∈ _returned (stage (work (multikeyStage (Some rejectAll)) emptyWorkingSet)).
Proof.
  assert (Hex : examined (multikeyStage (Some rejectAll)) = Some locA)
    by (vm_compute; reflexivity).
  split; [reflexivity|]. split; [exact Hex|].
  split; [vm_compute; reflexivity|]. split; [vm_compute; reflexivity|].
  rewrite returned_work, Hex. cbn.
  apply elem_of_union_l, elem_of_singleton. reflexivity.
Qed.

Lemma invalidate_reinstates_witness :
  locA ∈ _returned multikeyStarted
  ∧ observe
      (work
         (run [Invalidate locB; PrepareToYield; RecoverFromYield]
            (invalidate locA multikeyStarted) multikeyStartedSet).1.2
         (run [Invalidate locB; PrepareToYield; RecoverFromYield]
            (invalidate locA multikeyStarted) multikeyStartedSet).2)
    = (ADVANCED, Some locA).
Proof.
  split.
  { unfold multikeyStarted. rewrite returned_work.
    replace (examined (multikeyStage None)) with (Some locA) by (vm_compute; reflexivity).
    cbn. apply elem_of_union_l, elem_of_singleton. reflexivity. }
  pose proof (invalidate_reinstates multikeyStarted multikeyStartedSet locA
                [Invalidate locB; PrepareToYield; RecoverFromYield] multikeySecond)
    as Hthm.
  cbv zeta in Hthm.
  destruct Hthm as (_ & _ & Hobs).
  - reflexivity.
  - cbn. exact I.
  - vm_compute. reflexivity.
  - vm_compute. reflexivity.
  - reflexivity.
  - replace (Filter_passes _ _) with true in Hobs by (vm_compute; reflexivity).
    destruct Hobs as [Hret Hem].
    unfold observe. rewrite Hret, Hem. reflexivity.
Defined.

(** C5 as stated fails: location [locA] is emitted and then invalidated; the
    next entry pointing at it is not dropped as a duplicate, but the filter
    rejects its key and the step returns NEED_TIME instead of ADVANCED. *)
Lemma reinstated_entry_can_be_filtered :
  map observe
    (run [Work; Invalidate locA; Work] (multikeyStage (Some onlyKeyOne))
       emptyWorkingSet).1.1
  = [(ADVANCED, Some locA); (NEED_TIME, None)]
  ∧ examined (invalidate locA
                (stage (work (multikeyStage (Some onlyKeyOne)) emptyWorkingSet)))
    = Some locA
  ∧ IndexScanStats.dupsDropped
      (_specificStats
         (run [Work; Invalidate locA; Work] (multikeyStage (Some onlyKeyOne))
            emptyWorkingSet).1.2) = 0%N.
Proof. split; [|split]; vm_compute; reflexivity. Qed.


Lemma scan_trace_witness :
  map observe
    (run (replicate 4 Work) (multikeyStage (Some onlyKeyOne)) emptyWorkingSet).1.1
  = [(ADVANCED, Some locA); (NEED_TIME, None); (NEED_TIME, None); (IS_EOF, None)].
Proof.
  etransitivity.
  - apply (@scan_trace multikey multikeyEntries (multikeyStage (Some onlyKeyOne)) emptyWorkingSet
             (initCursor (multikeyStage (Some onlyKeyOne)))).
    + left. repeat split.
    + vm_compute. repeat split; left; reflexivity.
  - vm_compute. reflexivity.
Defined.

Lemma no_location_emitted_twice_witness :
  NoDup (emissions
           (run [Work; PrepareToYield; RecoverFromYield; Work; Work; Work]
              (multikeyStage None) emptyWorkingSet).1.1).
Proof.
  apply (no_location_emitted_twice
           [Work; PrepareToYield; RecoverFromYield; Work; Work; Work]
           (multikeyStage None) emptyWorkingSet).
  - reflexivity.
  - repeat constructor.
Defined.


End OnMultikey.

Section OnGrowing.
#[local] Existing Instance TailingIndex.growing.
Import ListIndex Scenarios TailingIndex.


End OnGrowing.
